(** * whatsapp-scheduler: the dispatch command [send_message.cjs] and the
    scheduling engine that drives it.

    The first part embeds [node_whatsapp/send_message.cjs]: a Node script
    that takes [<phone> <message> [image]] on its command line, opens a
    WhatsApp session and sends the text and, optionally, an image.  Every
    call that leaves the script (the session library, the file system, the
    console, [process.exit]) is recorded in a trace, so that what was sent,
    in which order, and how the process ended can be stated and proved.

    The second part is the scheduling engine, which reads the rows of a job
    source and calls the dispatch command once per Job.  Its code
    ([app/scheduler.py]) is not among the sources, so it is modelled from
    the specification.

    Definitions come first (modules [JS], [SendMessage], [Scheduler]), then
    their properties ([JSFacts], [SendMessageSpec], [SchedulerSpec]). *)

From Stdlib Require Import String Ascii ZArith NArith Lia Bool.
From stdpp Require Import base list.

Local Open Scope N_scope.

(** ** JavaScript strings

    A JavaScript string is a sequence of UTF-16 code units.  The script
    only inspects its arguments one code unit at a time ([\d], white space,
    a literal prefix), so a list of code units is all the structure that is
    needed. *)
Module JS.

Definition jsstring := list N.

(** An ASCII literal of the source, as code units. *)
Definition lit (s : string) : jsstring :=
  map N_of_ascii (list_ascii_of_string s).

(** [\d] without the [u] flag: the ten ASCII digits. *)
Definition is_digit (c : N) : bool := (48 <=? c) && (c <=? 57).

(** [s.replace(/[cls]/g, r)] for a character class [cls]: every code unit
    matched by the class is replaced by [r], all others are kept, in
    order. *)
Definition replace_class (cls : N -> bool) (r : jsstring) (s : jsstring)
  : jsstring :=
  flat_map (fun c => if cls c then r else [c]) s.

(** White space and line terminators of ECMAScript, the code units that
    [String.prototype.trim] strips. *)
Definition is_space (c : N) : bool :=
  (c =? 9) || (c =? 10) || (c =? 11) || (c =? 12) || (c =? 13) ||
  (c =? 32) || (c =? 160) || (c =? 5760) ||
  ((8192 <=? c) && (c <=? 8202)) ||
  (c =? 8232) || (c =? 8233) || (c =? 8239) || (c =? 8287) ||
  (c =? 12288) || (c =? 65279).

Fixpoint trim_start (s : jsstring) : jsstring :=
  match s with
  | c :: s' => if is_space c then trim_start s' else s
  | [] => []
  end.

Definition trim (s : jsstring) : jsstring :=
  rev (trim_start (rev (trim_start s))).

Definition is_empty (s : jsstring) : bool :=
  match s with [] => true | _ => false end.

(** [s] starts with the literal [p]; the rest of [s] is returned. *)
Fixpoint strip_prefix (p s : jsstring) : option jsstring :=
  match p, s with
  | [], _ => Some s
  | a :: p', b :: s' => if a =? b then strip_prefix p' s' else None
  | _ :: _, [] => None
  end.

Definition starts_with (p s : jsstring) : bool :=
  match strip_prefix p s with Some _ => true | None => false end.

(** [/^https?:\/\//.test(s)]: the literal [http] at the start, then an
    optional [s] (tried first, given up when the rest does not match), then
    the literal [://]. *)
Definition test_http_regex (s : jsstring) : bool :=
  match strip_prefix (lit "http") s with
  | None => false
  | Some r =>
      match r with
      | 115 :: r' => starts_with (lit "://") r' || starts_with (lit "://") r
      | _ => starts_with (lit "://") r
      end
  end.

(** What the specification calls a URL. *)
Definition begins_with_http (s : jsstring) : bool :=
  starts_with (lit "http://") s || starts_with (lit "https://") s.

Definition all_space (s : jsstring) : bool := forallb is_space s.

End JS.

(** ** The dispatch command, [node_whatsapp/send_message.cjs] *)
Module SendMessage.
Import JS.

(** A value that is thrown, or with which a promise is rejected: an
    [Error] object with its [message], [undefined], [null], or any other
    value (shown by its printed form; reading its [message] gives
    [undefined]). *)
Inductive thrown :=
| ErrorObject (message : jsstring)
| OtherValue (printed : jsstring)
| UndefinedValue
| NullValue.

(** How an awaited promise settles.  The script never looks at the value a
    promise is fulfilled with. *)
Inductive settled :=
| Fulfilled
| Rejected (reason : thrown).

(** Everything the script does not decide itself: the session library
    ([wa.create] and the client's [sendText], [sendImage], [kill]) and
    Node's [fs] and [path] modules.  [kill_result n] is how the call to
    [client.kill()] settles when it has been called [n] times before. *)
Record World := {
  create_result : settled;
  sendText_result : jsstring -> jsstring -> settled;
  sendImage_result : jsstring -> jsstring -> jsstring -> jsstring -> settled;
  kill_result : nat -> settled;
  existsSync : jsstring -> bool;
  path_resolve : jsstring -> jsstring;
  path_basename : jsstring -> jsstring
}.

(** An argument of [console.log] or [console.error]. *)
Inductive logarg :=
| Str (s : jsstring)
| Val (e : thrown).

(** What the script does to the outside, in the order it does it.  A call
    on the session or the file system is recorded with its result. *)
Inductive event :=
| ConsoleError (args : list logarg)
| ConsoleLog (args : list logarg)
| WaCreate (r : settled)
| SendText (to content : jsstring) (r : settled)
| ExistsSync (p : jsstring) (found : bool)
| SendImage (to file filename caption : jsstring) (r : settled)
| SetTimeout (ms : Z)
| Kill (r : settled).

(** How a piece of the script completes: normally, by a throw (or a
    rejected promise that is awaited), or by [process.exit], which no
    handler intercepts. *)
Inductive completion (A : Type) :=
| Normal (a : A)
| Throw (e : thrown)
| Exit (code : Z).
Arguments Normal {A} a.
Arguments Throw {A} e.
Arguments Exit {A} code.

Record state := { trace : list event; kills : nat }.

Definition M (A : Type) := state -> state * completion A.

Definition ret {A} (a : A) : M A := fun s => (s, Normal a).

Definition bind {A B} (m : M A) (f : A -> M B) : M B :=
  fun s =>
    match m s with
    | (s', Normal a) => f a s'
    | (s', Throw e) => (s', Throw e)
    | (s', Exit c) => (s', Exit c)
    end.

Declare Scope js_scope.
Delimit Scope js_scope with js.
Notation "x <- m ; k" := (bind m (fun x => k))
  (at level 20, m at level 100, k at level 200, only parsing) : js_scope.
Notation "m ;; k" := (bind m (fun _ => k))
  (at level 100, k at level 200, only parsing, right associativity) : js_scope.
Local Open Scope js_scope.

Definition throw {A} (e : thrown) : M A := fun s => (s, Throw e).

Definition process_exit {A} (code : Z) : M A := fun s => (s, Exit code).

(** [try { body } catch (err) { handler }] *)
Definition try_catch {A} (body : M A) (handler : thrown -> M A) : M A :=
  fun s =>
    match body s with
    | (s', Throw e) => handler e s'
    | r => r
    end.

(** A promise is the computation that settles it: it is fulfilled when the
    computation completes normally and rejected when it throws.
    [p.then(f)] runs [f] on fulfilment and stays rejected otherwise;
    [p.catch(h)] runs [h] on rejection. *)
Definition promise_then {A B} (p : M A) (f : A -> M B) : M B := bind p f.
Definition promise_catch {A} (p : M A) (h : thrown -> M A) : M A :=
  try_catch p h.

Definition emit (e : event) : M unit :=
  fun s => ({| trace := trace s ++ [e]; kills := kills s |}, Normal tt).

(** [await] on a promise of the outside world. *)
Definition await (r : settled) : M unit :=
  match r with
  | Fulfilled => ret tt
  | Rejected e => throw e
  end.

Definition console_error (args : list logarg) : M unit :=
  emit (ConsoleError args).
Definition console_log (args : list logarg) : M unit :=
  emit (ConsoleLog args).

Section Script.
Variable w : World.

Definition wa_create : M unit :=
  emit (WaCreate (create_result w)) ;; await (create_result w).

Definition client_sendText (to content : jsstring) : M unit :=
  let r := sendText_result w to content in
  emit (SendText to content r) ;; await r.

Definition client_sendImage (to file filename caption : jsstring) : M unit :=
  let r := sendImage_result w to file filename caption in
  emit (SendImage to file filename caption r) ;; await r.

Definition client_kill : M unit :=
  fun s =>
    let r := kill_result w (kills s) in
    bind (emit (Kill r)) (fun _ => await r)
         {| trace := trace s; kills := S (kills s) |}.

Definition fs_existsSync (p : jsstring) : M bool :=
  let b := existsSync w p in
  emit (ExistsSync p b) ;; ret b.

(** [new Promise(resolve => setTimeout(resolve, ms))] *)
Definition sleep (ms : Z) : M unit := emit (SetTimeout ms).

(** [undefined] and [null] have no properties. *)
Definition is_nullish (err : thrown) : bool :=
  match err with
  | UndefinedValue | NullValue => true
  | ErrorObject _ | OtherValue _ => false
  end.

(** The [TypeError] that reading [err.message] throws when [err] is
    [undefined] or [null]. *)
Definition type_error (err : thrown) : thrown :=
  match err with
  | NullValue =>
      ErrorObject (lit "Cannot read properties of null (reading 'message')")
  | _ =>
      ErrorObject
        (lit "Cannot read properties of undefined (reading 'message')")
  end.

(** The value of [err.message || err] when [err] has properties: the
    message of an [Error] unless it is the empty string, the thrown value
    itself otherwise. *)
Definition shown_error (err : thrown) : logarg :=
  match err with
  | ErrorObject m => if is_empty m then Val err else Str m
  | _ => Val err
  end.

(** [err.message || err]: reading [message] throws a [TypeError] when
    [err] is [undefined] or [null]. *)
Definition message_or_self (err : thrown) : M logarg :=
  if is_nullish err then throw (type_error err) else ret (shown_error err).

(** [phone.replace(/[^\d]/g, '') + '@c.us'] *)
Definition cleanPhone (phone : jsstring) : jsstring :=
  replace_class (fun c => negb (is_digit c)) [] phone ++ lit "@c.us".

(** [imagePath && imagePath.trim() !== '']; an argument that was not
    given is [undefined], here [None]. *)
Definition image_given (imagePath : option jsstring) : bool :=
  match imagePath with
  | None => false
  | Some p => negb (is_empty p) && negb (is_empty (trim p))
  end.

(** Lines 42-52: the image, when one is given. *)
Definition send_image (phone message : jsstring)
    (imagePath : option jsstring) : M unit :=
  match imagePath with
  | Some p =>
      if image_given imagePath then
        resolvedImage <-
          (if negb (test_http_regex p) then
             let resolved := path_resolve w p in
             found <- fs_existsSync resolved;
             if negb found then
               throw (ErrorObject (lit "Image file not found: " ++ resolved))
             else ret resolved
           else ret p);
        client_sendImage (cleanPhone phone) resolvedImage
                         (path_basename w resolvedImage) message ;;
        console_log [Str (lit "Image sent to " ++ phone)]
      else ret tt
  | None => ret tt
  end.

(** Lines 35-66: the handler given to [.then], with its [try]/[catch]. *)
Definition on_client (phone message : jsstring)
    (imagePath : option jsstring) : M unit :=
  try_catch
    (client_sendText (cleanPhone phone) message ;;
     console_log [Str (lit "Message sent to " ++ phone)] ;;
     send_image phone message imagePath ;;
     console_log [Str (lit "Waiting 15 seconds to ensure message delivery...")] ;;
     sleep 15000 ;;
     client_kill ;;
     process_exit 0)
    (fun err =>
       shown <- message_or_self err;
       console_error [Str (lit "Error during WhatsApp automation:"); shown] ;;
       client_kill ;;
       process_exit 1).

Definition usage : jsstring :=
  lit "Usage: node send_message.cjs <phone> <message> [image]".

(** The whole script; [args] is [process.argv.slice(2)]. *)
Definition script (args : list jsstring) : M unit :=
  (if (length args <? 2)%nat then
     console_error [Str usage] ;; process_exit 1
   else ret tt) ;;
  match args with
  | phone :: message :: rest =>
      let imagePath := head rest in
      promise_catch
        (promise_then wa_create
           (fun _ => on_client phone message imagePath))
        (fun err =>
           console_error [Str (lit "Error initializing wa-automate:"); Val err] ;;
           process_exit 1)
  | _ => ret tt
  end.

End Script.

(** How the process ends: by [process.exit], by running out of work (Node
    then exits with status 0), or on a rejection nobody handles (Node 15
    and later print it and exit with status 1). *)
Inductive termination :=
| Exited (code : Z)
| Drained
| Unhandled (e : thrown).

Definition exit_status (t : termination) : Z :=
  match t with
  | Exited c => c
  | Drained => 0%Z
  | Unhandled _ => 1%Z
  end.

Definition initial : state := {| trace := []; kills := O |}.

Definition run (w : World) (args : list jsstring) : list event * termination :=
  match script w args initial with
  | (s, Normal _) => (trace s, Drained)
  | (s, Throw e) => (trace s, Unhandled e)
  | (s, Exit c) => (trace s, Exited c)
  end.

Definition run_trace (w : World) (args : list jsstring) : list event :=
  fst (run w args).
Definition run_end (w : World) (args : list jsstring) : termination :=
  snd (run w args).

(** A step of the run that reports failure: a rejected call on the
    session, or a local image that is not there. *)
Definition step_failed (e : event) : bool :=
  match e with
  | WaCreate (Rejected _) => true
  | SendText _ _ (Rejected _) => true
  | SendImage _ _ _ _ (Rejected _) => true
  | Kill (Rejected _) => true
  | ExistsSync _ false => true
  | _ => false
  end.

Definition is_send_image (e : event) : bool :=
  match e with SendImage _ _ _ _ _ => true | _ => false end.
Definition is_exists_sync (e : event) : bool :=
  match e with ExistsSync _ _ => true | _ => false end.
Definition is_send (e : event) : bool :=
  match e with
  | SendText _ _ _ | SendImage _ _ _ _ _ => true
  | _ => false
  end.
Definition opens_session (e : event) : bool :=
  match e with WaCreate _ => true | _ => false end.
Definition is_kill (e : event) : bool :=
  match e with Kill _ => true | _ => false end.

(** The recipient of a send. *)
Definition recipient_of (e : event) : option jsstring :=
  match e with
  | SendText to _ _ => Some to
  | SendImage to _ _ _ _ => Some to
  | _ => None
  end.

(** The sends of a trace, in order. *)
Definition sends (tr : list event) : list event := List.filter is_send tr.

(** What a trace does about the image: the look-ups of a local file and
    the image sends, in order. *)
Definition image_events (tr : list event) : list event :=
  List.filter (fun e => is_exists_sync e || is_send_image e) tr.

Definition is_fulfilled (r : settled) : bool :=
  match r with Fulfilled => true | Rejected _ => false end.

(** The run gets as far as the image: the session is created and the text
    send is fulfilled. *)
Definition image_step_reached (w : World) (phone message : jsstring) : bool :=
  is_fulfilled (create_result w) &&
  is_fulfilled (sendText_result w (cleanPhone phone) message).


(** The image argument is absent, empty or white space only. *)
Definition image_blank (imagePath : option jsstring) : bool :=
  match imagePath with
  | None => true
  | Some p => all_space p
  end.

(** The image can be sent: it is a URL, or the local file is there. *)
Definition image_available (w : World) (p : jsstring) : bool :=
  begins_with_http p || existsSync w (path_resolve w p).

(** The file handed to the image send for the argument [p]. *)
Definition image_target (w : World) (p : jsstring) : jsstring :=
  if begins_with_http p then p else path_resolve w p.

(** The image step of a run failed: the local file was not found, or the
    image send was rejected. *)
Definition image_step_failed (e : event) : bool :=
  match e with
  | ExistsSync _ false => true
  | SendImage _ _ _ _ (Rejected _) => true
  | _ => false
  end.

(** [needle] occurs in [hay]. *)
Fixpoint contains (needle hay : jsstring) : bool :=
  starts_with needle hay ||
  match hay with
  | [] => false
  | _ :: hay' => contains needle hay'
  end.

(** The text the console shows for an argument. *)
Definition text_of (a : logarg) : jsstring :=
  match a with
  | Str s => s
  | Val (ErrorObject m) => m
  | Val (OtherValue v) => v
  | Val UndefinedValue => lit "undefined"
  | Val NullValue => lit "null"
  end.

(** An error line of the console that mentions [p]. *)
Definition error_mentions (p : jsstring) (e : event) : bool :=
  match e with
  | ConsoleError args => existsb (fun a => contains p (text_of a)) args
  | _ => false
  end.

(** *** Sample worlds

    A POSIX [path] module for them, with the working directory [/srv/wa]:
    [path.resolve] makes a relative path absolute and normalizes it (empty
    segments and [.] are dropped, [..] removes the segment before it), and
    [path.basename] is the last segment, trailing slashes apart. *)

(** The segments of a path between its slashes; [cur] is the segment
    being read, last code unit first. *)
Fixpoint split_slash (s cur : jsstring) : list jsstring :=
  match s with
  | [] => [rev cur]
  | c :: s' =>
      if c =? 47 then rev cur :: split_slash s' []
      else split_slash s' (c :: cur)
  end.

(** One segment more on the segments kept so far (last one first). *)
Definition push_segment (kept : list jsstring) (seg : jsstring)
  : list jsstring :=
  match seg with
  | [] => kept
  | [46] => kept
  | [46; 46] => tail kept
  | _ => seg :: kept
  end.

Definition sample_resolve (p : jsstring) : jsstring :=
  let full :=
    match p with
    | 47 :: _ => p
    | _ => lit "/srv/wa/" ++ p
    end in
  match rev (fold_left push_segment (split_slash full []) []) with
  | [] => [47]
  | segs => flat_map (fun seg => 47 :: seg) segs
  end.

Fixpoint take_until_slash (s : jsstring) : jsstring :=
  match s with
  | [] => []
  | c :: s' => if c =? 47 then [] else c :: take_until_slash s'
  end.

Fixpoint drop_slashes (s : jsstring) : jsstring :=
  match s with
  | c :: s' => if c =? 47 then drop_slashes s' else s
  | [] => []
  end.

Definition sample_basename (p : jsstring) : jsstring :=
  rev (take_until_slash (drop_slashes (rev p))).

(** Every call on the session is fulfilled; [found] says which local files
    are there. *)
Definition healthy (found : bool) : World :=
  {| create_result := Fulfilled;
     sendText_result := fun _ _ => Fulfilled;
     sendImage_result := fun _ _ _ _ => Fulfilled;
     kill_result := fun _ => Fulfilled;
     existsSync := fun _ => found;
     path_resolve := sample_resolve;
     path_basename := sample_basename |}.

(** The session opens, but the text send is rejected; no local file is
    there. *)
Definition text_rejected : World :=
  {| create_result := Fulfilled;
     sendText_result := fun _ _ => Rejected (ErrorObject (lit "Chat not found"));
     sendImage_result := fun _ _ _ _ => Fulfilled;
     kill_result := fun _ => Fulfilled;
     existsSync := fun _ => false;
     path_resolve := sample_resolve;
     path_basename := sample_basename |}.

Definition sample_phone : jsstring := lit "+1 (555) 010-0199".
Definition sample_message : jsstring := lit "See you at nine".
Definition sample_image : jsstring := lit "flyer.png".
Definition sample_url : jsstring := lit "https://example.org/flyer.png".

End SendMessage.

(** ** The scheduling engine

    The Job Parser and the Scheduling Engine ([app/scheduler.py]) are not
    among the sources.  They are modelled here from sections 3, 4.1 and 4.3
    of the specification. *)
Module Scheduler.

Local Open Scope Z_scope.

(** Modelled from the spec: the statuses of a Job (section 3); the engine
    of [app/scheduler.py] is missing from the sources. *)
Inductive Status := PENDING | DUE | SENT | FAILED | SKIPPED.

(** Modelled from the spec: the Job record of section 3. *)
Record Job := {
  recipient : string;
  message : string;
  image : option string;
  scheduled_at : option Z;
  status : Status;
  attempts : nat;
  last_error : option string
}.

(** Modelled from the spec: the Outcome of [dispatch(job) -> Outcome]
    (section 4.2), [{success: bool, error: optional string}]. *)
Record Outcome := { success : bool; error : option string }.

(** Modelled from the spec: a row of the job source, with the columns
    [Phone], [Message], [Image] and [Scheduled Time]; a blank cell is
    [None]. *)
Record Row := {
  Phone : string;
  Message : option string;
  Image : option string;
  Scheduled_Time : option Z
}.

(** Modelled from the spec: a row missing both [Message] and [Image] is
    invalid. *)
Definition row_valid (r : Row) : bool :=
  match Message r, Image r with
  | None, None => false
  | _, _ => true
  end.

(** Modelled from the spec: section 4.1, one Job per row, in row order; an
    invalid row gives a [SKIPPED] Job with a descriptive error, every other
    row a [PENDING] one. *)
Definition parse_row (r : Row) : Job :=
  {| recipient := Phone r;
     message := default EmptyString (Message r);
     image := Image r;
     scheduled_at := Scheduled_Time r;
     status := if row_valid r then PENDING else SKIPPED;
     attempts := O;
     last_error :=
       if row_valid r then None
       else Some "row has neither a message nor an image"%string |}.

(** Modelled from the spec: the Job Parser, which keeps row order. *)
Definition parse (rows : list Row) : list Job := map parse_row rows.

(** Modelled from the spec: the two execution modes of section 4.3. *)
Inductive Mode := Immediate | Scheduled.

(** Modelled from the spec: what the engine is given from outside.  The
    Dispatch Gateway answers the [n]-th call of a run, for the Job handed to
    it, with one terminal Outcome; [sample_delay n] is the randomized delay
    drawn before that call, [elapsed n] the time the call takes, and
    [start] the time at which the run begins. *)
Record Env := {
  dispatch : nat -> Job -> Outcome;
  sample_delay : nat -> Z;
  elapsed : nat -> Z;
  start : Z
}.

(** Modelled from the spec: the state of the engine, which is the queue in
    row order, the current time, and the dispatch calls made so far (row
    index and Outcome), oldest first. *)
Record Engine := {
  queue : list Job;
  now : Z;
  log : list (nat * Outcome)
}.

(** Modelled from the spec: a Job that has not been taken up yet. *)
Definition is_pending (j : Job) : bool :=
  match status j with PENDING => true | _ => false end.


(** Modelled from the spec: a Job is due when it is still [PENDING] and, in
    scheduled mode, its [scheduled_at] is blank or not after the current
    time; immediate mode ignores [scheduled_at]. *)
Definition is_due (m : Mode) (t : Z) (j : Job) : bool :=
  is_pending j &&
  match m, scheduled_at j with
  | Immediate, _ => true
  | Scheduled, None => true
  | Scheduled, Some at_ => at_ <=? t
  end.

(** Modelled from the spec: the time by which due Jobs are ranked, their
    [scheduled_at] in scheduled mode and nothing in immediate mode, which
    goes by row order alone. *)
Definition rank (m : Mode) (j : Job) : option Z :=
  match m with
  | Immediate => None
  | Scheduled => scheduled_at j
  end.

(** Modelled from the spec: [a] is strictly earlier than [b].  Among due
    Jobs one with a time goes before one without: in the scenario of
    section 8 the row with a time is first once it is due, and the row
    with a blank time is first only while the other is not due yet. *)
Definition sooner (a b : option Z) : bool :=
  match a, b with
  | Some x, Some y => x <? y
  | Some _, None => true
  | None, _ => false
  end.

(** Modelled from the spec: one scan of the queue, from row [i] on, for the
    due Job of earliest rank; a later row replaces the candidate only when
    it is strictly earlier, so that row order breaks ties. *)
Fixpoint scan (m : Mode) (t : Z) (i : nat) (q : list Job)
    (best : option (nat * Job)) : option (nat * Job) :=
  match q with
  | [] => best
  | j :: q' =>
      let best' :=
        if is_due m t j then
          match best with
          | None => Some (i, j)
          | Some (_, b) =>
              if sooner (rank m j) (rank m b) then Some (i, j) else best
          end
        else best in
      scan m t (S i) q' best'
  end.

(** Modelled from the spec: the Job to dispatch next, found by a scan of
    the whole queue at the current time. *)
Definition select (m : Mode) (st : Engine) : option (nat * Job) :=
  scan m (now st) O (queue st) None.

(** Modelled from the spec: the earliest [scheduled_at] among the Jobs
    still [PENDING], the time the engine waits for. *)
Fixpoint next_wake (q : list Job) : option Z :=
  match q with
  | [] => None
  | j :: q' =>
      match (if is_pending j then scheduled_at j else None), next_wake q' with
      | Some a, Some b => Some (Z.min a b)
      | Some a, None => Some a
      | None, r => r
      end
  end.

(** Modelled from the spec: in scheduled mode, when no Job is due, the
    engine suspends until the next Job's [scheduled_at] arrives. *)
Definition suspend (m : Mode) (st : Engine) : Engine :=
  match m, select m st, next_wake (queue st) with
  | Scheduled, None, Some t =>
      {| queue := queue st; now := Z.max (now st) t; log := log st |}
  | _, _, _ => st
  end.

(** Modelled from the spec: [PENDING -> DUE]. *)
Definition mark_due (j : Job) : Job :=
  {| recipient := recipient j; message := message j; image := image j;
     scheduled_at := scheduled_at j; status := DUE;
     attempts := attempts j; last_error := last_error j |}.

(** Modelled from the spec: steps 2 to 4 of the dispatch sequence, on the
    Job itself: one more attempt, [SENT] on success, [FAILED] with the
    error recorded on failure. *)
Definition record_outcome (o : Outcome) (j : Job) : Job :=
  {| recipient := recipient j; message := message j; image := image j;
     scheduled_at := scheduled_at j;
     status := if success o then SENT else FAILED;
     attempts := S (attempts j);
     last_error := if success o then last_error j else error o |}.

(** Modelled from the spec: the per-Job dispatch sequence of section 4.3
    for the Job at row [i]: mark it [DUE], wait the randomized delay (not
    before the first Job of a run), call the gateway, record the Outcome in
    the Job, and go on. *)
Definition dispatch_job (env : Env) (i : nat) (j : Job) (st : Engine)
  : Engine :=
  let n := length (log st) in
  let due := mark_due j in
  let q1 := <[i := due]> (queue st) in
  let t1 := now st + (if (n =? 0)%nat then 0 else sample_delay env n) in
  let o := dispatch env n due in
  {| queue := <[i := record_outcome o due]> q1;
     now := t1 + elapsed env n;
     log := log st ++ [(i, o)] |}.

(** Modelled from the spec: the loop of the engine.  As long as a Job can
    be selected, dispatch it; every round takes one Job to a terminal
    status, so as many rounds as there are Jobs suffice. *)
Fixpoint loop (env : Env) (m : Mode) (rounds : nat) (st : Engine) : Engine :=
  match rounds with
  | O => st
  | S rounds' =>
      let st1 := suspend m st in
      match select m st1 with
      | Some (i, j) => loop env m rounds' (dispatch_job env i j st1)
      | None => st1
      end
  end.

(** Modelled from the spec: the queue is created from the rows at load
    time, with nothing dispatched yet. *)
Definition load (env : Env) (rows : list Row) : Engine :=
  {| queue := parse rows; now := start env; log := [] |}.

(** Modelled from the spec: one run, which yields the full Job set. *)
Definition run (env : Env) (m : Mode) (rows : list Row) : Engine :=
  loop env m (length rows) (load env rows).

(** The rows in the order in which they were dispatched. *)
Definition dispatch_order (st : Engine) : list nat := map fst (log st).

(** Row [i] comes before row [k] in an order of dispatch. *)
Definition dispatched_before (i k : nat) (order : list nat) : Prop :=
  exists l1 l2 l3, order = l1 ++ i :: l2 ++ k :: l3.

(** *** Predicates used to state the engine's invariants *)

(** Row [i] with Job [j] goes before row [i'] with Job [j'] in the order
    of selection: strictly earlier rank, or the same rank and an earlier
    row. *)
Definition beats (m : Mode) (i : nat) (j : Job) (i' : nat) (j' : Job) : Prop :=
  sooner (rank m j) (rank m j') = true \/
  (rank m j = rank m j' /\ (i < i')%nat).

(** The number of Jobs still [PENDING]. *)
Definition pending_count (q : list Job) : nat :=
  length (List.filter is_pending q).

(** The engine state agrees with the rows it was loaded from: one Job per
    row with the row's time, a [PENDING] Job is a valid row that has not
    been dispatched, an invalid row stays [SKIPPED], and the log holds
    exactly the Jobs that were dispatched, once each, with the Outcome that
    their status and error record. *)
Record tracks (rows : list Row) (st : Engine) : Prop := {
  tracks_length : length (queue st) = length rows;
  tracks_row : forall i j, queue st !! i = Some j ->
    exists r, rows !! i = Some r /\
      scheduled_at j = Scheduled_Time r /\
      status j <> DUE /\
      (status j = SKIPPED <-> row_valid r = false);
  tracks_pending : forall i j, queue st !! i = Some j ->
    status j = PENDING -> attempts j = O /\ i ∉ dispatch_order st;
  tracks_done : forall i j, queue st !! i = Some j ->
    status j = SENT \/ status j = FAILED -> i ∈ dispatch_order st;
  tracks_nodup : NoDup (dispatch_order st);
  tracks_log : forall i o, (i, o) ∈ log st ->
    exists j, queue st !! i = Some j /\
      status j = (if success o then SENT else FAILED) /\
      attempts j = 1%nat /\
      (success o = false -> last_error j = error o)
}.

(** Where the rows [a] and [b] stand with respect to each other during a
    run: both wait, or [a] went and [b] waits, or [a] went before [b]. *)
Definition pair_order (a b : nat) (st : Engine) : Prop :=
  (exists ja jb, queue st !! a = Some ja /\ queue st !! b = Some jb /\
     status ja = PENDING /\ status jb = PENDING) \/
  (a ∈ dispatch_order st /\
   exists jb, queue st !! b = Some jb /\ status jb = PENDING) \/
  dispatched_before a b (dispatch_order st).

(** *** Sample run

    Three rows: two with the same [Scheduled Time] around one with none;
    a gateway that fails for the second recipient, and one that always
    succeeds. *)
Definition row_hello : Row :=
  {| Phone := "+1-555-0100"; Message := Some "Hello"%string;
     Image := None; Scheduled_Time := Some 900 |}.

Definition row_hi : Row :=
  {| Phone := "5550101"; Message := Some "Hi"%string;
     Image := Some "img.png"%string; Scheduled_Time := None |}.

Definition row_again : Row :=
  {| Phone := "5550102"; Message := Some "Hello again"%string;
     Image := None; Scheduled_Time := Some 900 |}.

Definition sample_rows : list Row := [row_hello; row_hi; row_again].

Definition ok : Outcome := {| success := true; error := None |}.

Definition transport_failure : Outcome :=
  {| success := false; error := Some "transport failure"%string |}.

Definition sample_env (fails : string) : Env :=
  {| dispatch := fun _ j =>
       if String.eqb (recipient j) fails then transport_failure else ok;
     sample_delay := fun n => 5 + Z.of_nat n;
     elapsed := fun _ => 20;
     start := 1000 |}.

End Scheduler.

(** ** Further observations on a run of the dispatch command *)
Module Observe.
Import JS SendMessage.

(** The calls of a trace on the session library, in order. *)
Definition is_session_call (e : event) : bool :=
  match e with
  | WaCreate _ | SendText _ _ _ | SendImage _ _ _ _ _ | Kill _ => true
  | _ => false
  end.

Definition session_calls (tr : list event) : list event :=
  List.filter is_session_call tr.

(** How often [client.kill()] is called. *)
Definition kill_count (tr : list event) : nat :=
  length (List.filter is_kill tr).

(** Everything the command was asked to send has been sent: the session
    is open, the text send is fulfilled and, when an image is given, the
    image is available and its send is fulfilled. *)
Definition delivered_all (w : World) (phone message : jsstring)
    (imagePath : option jsstring) : bool :=
  image_step_reached w phone message &&
  match imagePath with
  | None => true
  | Some p =>
      all_space p ||
      (image_available w p &&
       is_fulfilled
         (sendImage_result w (cleanPhone phone) (image_target w p)
            (path_basename w (image_target w p)) message))
  end.

(** The two error lines and the two progress lines of the script. *)
Definition init_error_line (err : thrown) : event :=
  ConsoleError [Str (lit "Error initializing wa-automate:"); Val err].

Definition automation_error_line (err : thrown) : event :=
  ConsoleError [Str (lit "Error during WhatsApp automation:");
                shown_error err].

(** The value with which a call on the session was rejected. *)
Definition rejection_of (e : event) : option thrown :=
  match e with
  | WaCreate (Rejected err) | SendText _ _ (Rejected err)
  | SendImage _ _ _ _ (Rejected err) | Kill (Rejected err) => Some err
  | _ => None
  end.

(** What the [try] block throws before it gets to [client.kill()], if
    anything: the rejection of the text send, the error for a local image
    that is not found, or the rejection of the image send. *)
Definition try_failure (w : World) (phone message : jsstring)
    (imagePath : option jsstring) : option thrown :=
  match sendText_result w (cleanPhone phone) message with
  | Rejected err => Some err
  | Fulfilled =>
      match imagePath with
      | None => None
      | Some p =>
          if all_space p then None
          else if image_available w p then
            match sendImage_result w (cleanPhone phone) (image_target w p)
                    (path_basename w (image_target w p)) message with
            | Rejected err => Some err
            | Fulfilled => None
            end
          else
            Some (ErrorObject
                    (lit "Image file not found: " ++ path_resolve w p))
      end
  end.

Definition message_sent_line (phone : jsstring) : event :=
  ConsoleLog [Str (lit "Message sent to " ++ phone)].

Definition image_sent_line (phone : jsstring) : event :=
  ConsoleLog [Str (lit "Image sent to " ++ phone)].

(** A world in which the session cannot be opened. *)
Definition no_session : World :=
  {| create_result := Rejected (OtherValue (lit "Timeout waiting for QR"));
     sendText_result := fun _ _ => Fulfilled;
     sendImage_result := fun _ _ _ _ => Fulfilled;
     kill_result := fun _ => Fulfilled;
     existsSync := fun _ => true;
     path_resolve := sample_resolve;
     path_basename := sample_basename |}.

(** A world in which everything is sent but the session does not close:
    every [client.kill()] is rejected. *)
Definition kill_rejected : World :=
  {| create_result := Fulfilled;
     sendText_result := fun _ _ => Fulfilled;
     sendImage_result := fun _ _ _ _ => Fulfilled;
     kill_result := fun _ => Rejected (ErrorObject (lit "Target closed"));
     existsSync := fun _ => true;
     path_resolve := sample_resolve;
     path_basename := sample_basename |}.

(** A world in which the text send is rejected without a reason:
    the promise is rejected with [undefined]. *)
Definition text_rejected_undefined : World :=
  {| create_result := Fulfilled;
     sendText_result := fun _ _ => Rejected UndefinedValue;
     sendImage_result := fun _ _ _ _ => Fulfilled;
     kill_result := fun _ => Fulfilled;
     existsSync := fun _ => true;
     path_resolve := sample_resolve;
     path_basename := sample_basename |}.

End Observe.

(** * Properties *)

(** ** The string operations *)
Module JSFacts.
Import JS.

Lemma replace_class_delete (cls : N -> bool) (s : jsstring) :
  replace_class cls [] s = List.filter (fun c => negb (cls c)) s.
Proof.
  unfold replace_class.
  induction s as [|c s IH]; simpl; [reflexivity|].
  destruct (cls c); simpl; rewrite IH; reflexivity.
Qed.

Lemma keep_digits (s : jsstring) :
  replace_class (fun c => negb (is_digit c)) [] s = List.filter is_digit s.
Proof.
  rewrite replace_class_delete.
  induction s as [|c s IH]; simpl; [reflexivity|].
  rewrite negb_involutive, IH. reflexivity.
Qed.

Lemma trim_start_nil (s : jsstring) :
  trim_start s = [] <-> all_space s = true.
Proof.
  unfold all_space.
  induction s as [|c s IH]; simpl; [tauto|].
  destruct (is_space c); simpl; [exact IH|].
  split; discriminate.
Qed.

Lemma trim_start_head (s : jsstring) (c : N) (r : jsstring) :
  trim_start s = c :: r -> is_space c = false.
Proof.
  induction s as [|d s IH]; simpl; [discriminate|].
  destruct (is_space d) eqn:E; [exact IH|].
  intros H. injection H as -> _. exact E.
Qed.

Lemma all_space_rev (s : jsstring) : all_space (rev s) = all_space s.
Proof.
  unfold all_space.
  induction s as [|c s IH]; simpl; [reflexivity|].
  rewrite forallb_app, IH. simpl. rewrite andb_true_r. apply andb_comm.
Qed.

(** [s.trim() === ''] exactly when [s] is white space only. *)
Lemma trim_empty (s : jsstring) : is_empty (trim s) = all_space s.
Proof.
  unfold trim.
  destruct (all_space s) eqn:E.
  - apply trim_start_nil in E. rewrite E. reflexivity.
  - destruct (trim_start s) as [|c r] eqn:T.
    + apply trim_start_nil in T. congruence.
    + destruct (trim_start (rev (c :: r))) as [|d r'] eqn:T'.
      * apply trim_start_nil in T'. rewrite all_space_rev in T'.
        apply trim_start_head in T. unfold all_space in T'. simpl in T'.
        rewrite T in T'. discriminate.
      * destruct (rev (d :: r')) eqn:R; [|reflexivity].
        apply (f_equal (@length N)) in R. rewrite length_rev in R.
        discriminate.
Qed.

Lemma strip_prefix_app (p q s : jsstring) :
  strip_prefix (p ++ q) s =
  match strip_prefix p s with
  | Some r => strip_prefix q r
  | None => None
  end.
Proof.
  revert s. induction p as [|a p IH]; intros s; simpl; [reflexivity|].
  destruct s as [|b s]; [reflexivity|].
  destruct (a =? b); [apply IH | reflexivity].
Qed.

Lemma starts_with_app (p q s : jsstring) :
  starts_with (p ++ q) s =
  match strip_prefix p s with
  | Some r => starts_with q r
  | None => false
  end.
Proof.
  unfold starts_with. rewrite strip_prefix_app.
  destruct (strip_prefix p s); reflexivity.
Qed.

(** The regular expression of the script accepts exactly the strings that
    begin with [http://] or [https://]. *)
Lemma test_http_regex_spec (s : jsstring) :
  test_http_regex s = begins_with_http s.
Proof.
  unfold test_http_regex, begins_with_http.
  change (lit "http://") with (lit "http" ++ lit "://").
  change (lit "https://") with (lit "http" ++ lit "s://").
  rewrite !starts_with_app.
  destruct (strip_prefix (lit "http") s) as [r|]; [|reflexivity].
  destruct r as [|c r]; [reflexivity|].
  change (lit "s://") with ([115] ++ lit "://").
  rewrite (starts_with_app [115]). cbn [strip_prefix].
  destruct (N.eqb_spec 115 c) as [<-|Hne].
  - apply orb_comm.
  - rewrite orb_false_r.
    destruct c as [|c]; [reflexivity|].
    do 7 (destruct c as [c|c|]; try reflexivity).
    exfalso. apply Hne. reflexivity.
Qed.

Lemma starts_with_self_app (p q : jsstring) : starts_with p (p ++ q) = true.
Proof.
  unfold starts_with.
  induction p as [|a p IH]; simpl; [reflexivity|].
  rewrite N.eqb_refl. exact IH.
Qed.

End JSFacts.

(** ** The dispatch command *)
Module SendMessageSpec.
Import JS SendMessage JSFacts.

Lemma image_given_spec (o : option jsstring) :
  image_given o = negb (image_blank o).
Proof.
  destruct o as [p|]; [|reflexivity].
  unfold image_given, image_blank. rewrite trim_empty.
  destruct p; reflexivity.
Qed.

Lemma cleanPhone_spec (phone : jsstring) :
  cleanPhone phone = List.filter is_digit phone ++ lit "@c.us".
Proof. unfold cleanPhone. rewrite keep_digits. reflexivity. Qed.

Lemma contains_here (p h : jsstring) :
  starts_with p h = true -> contains p h = true.
Proof. destruct h; simpl; intros ->; reflexivity. Qed.

Lemma contains_suffix (p q : jsstring) : contains p (q ++ p) = true.
Proof.
  induction q as [|c q IH].
  - apply contains_here. simpl.
    pose proof (starts_with_self_app p []) as H.
    rewrite app_nil_r in H. exact H.
  - simpl. rewrite IH. apply orb_true_r.
Qed.

(** Symbolic execution of the script: unfold the monad, then split on the
    next answer of the world that the run waits for. *)
Ltac unfold_script :=
  cbv beta iota zeta delta
    [run_trace run_end run script promise_catch promise_then
     on_client send_image try_catch bind wa_create client_sendText
     client_sendImage client_kill fs_existsSync sleep console_log
     console_error emit await ret throw process_exit initial
     message_or_self is_nullish
     fst snd head app trace kills length Nat.ltb Nat.leb negb].

Ltac world_case :=
  match goal with
  | |- context [match ?x with _ => _ end] =>
      lazymatch x with
      | context [match _ with _ => _ end] => fail
      | _ => destruct x eqn:?
      end
  end.

Ltac to_spec_words :=
  rewrite ?test_http_regex_spec, ?image_given_spec;
  cbv beta iota delta [image_blank negb].

Ltac world_cases := repeat (unfold_script; to_spec_words; world_case).

(** Rewrite with the answers of the world that the case split recorded. *)
Ltac use_answers :=
  repeat match goal with
         | E : ?x = ?v |- _ =>
             lazymatch v with
             | true => idtac | false => idtac
             | Fulfilled => idtac | Rejected _ => idtac
             end;
             progress (rewrite ?E in *)
         end.

Ltac run_cases := world_cases; unfold_script; to_spec_words.

(** C8: with fewer than two arguments the command prints its usage line
    and exits with status 1; it does nothing else, so no session is opened
    and nothing is sent. *)
Theorem usage_without_two_arguments (w : World) (args : list jsstring) :
  (length args < 2)%nat ->
  run w args = ([ConsoleError [Str usage]], Exited 1) /\
  forallb (fun e => negb (opens_session e) && negb (is_send e))
          (run_trace w args) = true.
Proof.
  intros H.
  assert (E : run w args = ([ConsoleError [Str usage]], Exited 1)).
  { destruct args as [|a [|b args]]; [reflexivity | reflexivity |].
    simpl in H. lia. }
  split; [exact E|]. unfold run_trace. rewrite E. reflexivity.
Qed.

Lemma usage_without_two_arguments_witness :
  (length [sample_phone] < 2)%nat /\
  run (healthy true) [sample_phone] = ([ConsoleError [Str usage]], Exited 1) /\
  forallb (fun e => negb (opens_session e) && negb (is_send e))
          (run_trace (healthy true) [sample_phone]) = true.
Proof.
  split; [simpl; lia|].
  apply (usage_without_two_arguments (healthy true) [sample_phone]).
  simpl; lia.
Defined.

(** X1: exit status 0 in terms of the world.  The run of a command with
    two or more arguments exits with status 0 exactly when the session
    opens, the text send is fulfilled, the image argument is blank or the
    image is available and its send is fulfilled, and the first
    [client.kill()] is fulfilled. *)
Theorem exit_zero_world (w : World) (phone message : jsstring)
    (rest : list jsstring) :
  run_end w (phone :: message :: rest) = Exited 0 <->
  create_result w = Fulfilled /\
  sendText_result w (cleanPhone phone) message = Fulfilled /\
  (image_blank (head rest) = true \/
   exists p, head rest = Some p /\ image_available w p = true /\
     sendImage_result w (cleanPhone phone) (image_target w p)
       (path_basename w (image_target w p)) message = Fulfilled) /\
  kill_result w O = Fulfilled.
Proof.
  unfold image_available, image_target.
  run_cases; simpl.
  all: split; [intros H; try discriminate H | intros (H1 & H2 & H3 & H4)].
  all: try congruence.
  (* the runs that exit with 0: name the image when there is one *)
  all: try (repeat split; try reflexivity; auto; fail).
  all: try (repeat split; try reflexivity; right; eexists;
            split; [reflexivity|]; use_answers; simpl; auto; fail).
  (* the runs that exit with 1: one of the four conditions fails *)
  all: destruct H3 as [H3 | (q & Hq & Ha & Hs)];
    [ simpl in H3; congruence
    | injection Hq as <-; use_answers; simpl in *; congruence ].
Qed.

(** C1, as stated, fails: every send the run attempts is fulfilled, the
    session was opened and no image was asked for, but [client.kill()] is
    rejected; the process exits with status 1. *)
Lemma exit_one_although_every_send_succeeded :
  (2 <= length [sample_phone; sample_message])%nat /\
  create_result Observe.kill_rejected = Fulfilled /\
  sends (run_trace Observe.kill_rejected [sample_phone; sample_message])
  = [SendText (cleanPhone sample_phone) sample_message Fulfilled] /\
  image_events
    (run_trace Observe.kill_rejected [sample_phone; sample_message]) = [] /\
  run_end Observe.kill_rejected [sample_phone; sample_message] = Exited 1.
Proof. repeat split; try (simpl; lia); vm_compute; reflexivity. Qed.

(** C1, amended: with at least two arguments the process ends by
    [process.exit], with status 0 or 1.  The status is 0 exactly when
    [wa.create] is fulfilled, the text send is fulfilled, a non-blank image
    argument names a URL or a local file that exists and its send is
    fulfilled, and the [client.kill()] that follows is fulfilled.  Each
    failure on its own makes the status 1: a rejected [wa.create]
    (initialization error), a rejected text send, image send or
    [client.kill()] (transport error), and a local image that is not
    found. *)
Theorem exit_status_zero_iff_nothing_failed (w : World)
    (phone message : jsstring) (rest : list jsstring) :
  let args := phone :: message :: rest in
  let to := cleanPhone phone in
  let image_sent (p : jsstring) :=
    sendImage_result w to (image_target w p)
      (path_basename w (image_target w p)) message in
  (run_end w args = Exited 0 \/ run_end w args = Exited 1) /\
  (run_end w args = Exited 0 <->
   create_result w = Fulfilled /\
   sendText_result w to message = Fulfilled /\
   (forall p, head rest = Some p -> all_space p = false ->
      image_available w p = true /\ image_sent p = Fulfilled) /\
   kill_result w 0 = Fulfilled) /\
  ((exists err, create_result w = Rejected err) ->
   run_end w args = Exited 1) /\
  ((exists err, sendText_result w to message = Rejected err) ->
   run_end w args = Exited 1) /\
  (forall p, head rest = Some p -> all_space p = false ->
     image_available w p = false -> run_end w args = Exited 1) /\
  (forall p err, head rest = Some p -> all_space p = false ->
     image_sent p = Rejected err -> run_end w args = Exited 1) /\
  ((exists err, kill_result w 0 = Rejected err) ->
   run_end w args = Exited 1).
Proof.
  intros args to image_sent. subst args to image_sent.
  assert (D : run_end w (phone :: message :: rest) = Exited 0 \/
              run_end w (phone :: message :: rest) = Exited 1).
  { run_cases; simpl; auto. }
  assert (Z : run_end w (phone :: message :: rest) = Exited 0 <->
    create_result w = Fulfilled /\
    sendText_result w (cleanPhone phone) message = Fulfilled /\
    (forall p, head rest = Some p -> all_space p = false ->
       image_available w p = true /\
       sendImage_result w (cleanPhone phone) (image_target w p)
         (path_basename w (image_target w p)) message = Fulfilled) /\
    kill_result w 0 = Fulfilled).
  { unfold image_available, image_target.
    run_cases; simpl;
      (split; [intros H; try discriminate H
              | intros (H1 & H2 & H3 & H4); try congruence]).
    (* status 0: the four conditions hold *)
    all: try (split; [reflexivity|]; split; [reflexivity|];
              split; [|reflexivity];
              intros q Hq Hs; simplify_eq; use_answers; simpl;
              first [congruence | auto]; fail).
    (* status 1 with the session open and the text sent: the image *)
    all: exfalso; edestruct H3 as [Ha Hs]; [reflexivity | eassumption |];
      use_answers; simpl in *; congruence. }
  split; [exact D|]. split; [exact Z|].
  assert (N : run_end w (phone :: message :: rest) <> Exited 0 ->
              run_end w (phone :: message :: rest) = Exited 1).
  { destruct D as [D|D]; [intros H; contradiction | intros _; exact D]. }
  repeat split.
  - intros (err & H). apply N. intros (H1 & _)%Z. congruence.
  - intros (err & H). apply N. intros (_ & H2 & _)%Z. congruence.
  - intros p Hp Hs Ha. apply N. intros (_ & _ & H3 & _)%Z.
    destruct (H3 p Hp Hs). congruence.
  - intros p err Hp Hs Hi. apply N. intros (_ & _ & H3 & _)%Z.
    destruct (H3 p Hp Hs). congruence.
  - intros (err & H). apply N. intros (_ & _ & _ & H4)%Z. congruence.
Qed.

(** C3: whatever the phone argument is, every send of a run goes to the
    digits of that argument, in their order, followed by [@c.us]. *)
Theorem recipient_is_digits_then_suffix (w : World) (args : list jsstring)
    (e : event) (to : jsstring) :
  In e (run_trace w args) ->
  recipient_of e = Some to ->
  exists phone, head args = Some phone /\
    to = List.filter is_digit phone ++ lit "@c.us".
Proof.
  destruct args as [|phone [|message rest]].
  - simpl. intros [<-|[]]. discriminate.
  - simpl. intros [<-|[]]. discriminate.
  - intros Hin Hto. exists phone. split; [reflexivity|].
    rewrite <- cleanPhone_spec. revert Hin.
    run_cases; simpl; intros Hin;
      repeat (destruct Hin as [<-|Hin]; [simpl in Hto; congruence|]);
      destruct Hin.
Qed.

Lemma recipient_is_digits_then_suffix_witness :
  In (SendText (lit "15550100199@c.us") sample_message Fulfilled)
     (run_trace (healthy true) [sample_phone; sample_message]) /\
  recipient_of (SendText (lit "15550100199@c.us") sample_message Fulfilled)
    = Some (lit "15550100199@c.us") /\
  exists phone, head [sample_phone; sample_message] = Some phone /\
    lit "15550100199@c.us" = List.filter is_digit phone ++ lit "@c.us".
Proof.
  split; [vm_compute; tauto|]. split; [reflexivity|].
  apply (recipient_is_digits_then_suffix (healthy true)
           [sample_phone; sample_message]
           (SendText (lit "15550100199@c.us") sample_message Fulfilled)).
  - vm_compute; tauto.
  - reflexivity.
Defined.

(** C6: what a run does with a non-blank image argument [p].  When the
    run gets to the image (the session is open and the text was sent), a
    [p] that begins with [http://] or [https://] is handed to the image
    send as it is and no file is looked up; any other [p] is resolved
    first, the resolved path is the one looked up, and the one sent when it
    is found.  Before that point the run does nothing about the image. *)
Theorem image_argument_resolution (w : World) (phone message p : jsstring)
    (rest : list jsstring) :
  all_space p = false ->
  image_events (run_trace w (phone :: message :: p :: rest)) =
    if image_step_reached w phone message then
      if begins_with_http p then
        [SendImage (cleanPhone phone) p (path_basename w p) message
           (sendImage_result w (cleanPhone phone) p (path_basename w p)
              message)]
      else
        let resolved := path_resolve w p in
        if existsSync w resolved then
          [ExistsSync resolved true;
           SendImage (cleanPhone phone) resolved (path_basename w resolved)
             message
             (sendImage_result w (cleanPhone phone) resolved
                (path_basename w resolved) message)]
        else [ExistsSync resolved false]
    else [].
Proof.
  intros Hp. unfold image_step_reached.
  run_cases; simpl in *; congruence.
Qed.

Lemma image_argument_resolution_witness :
  all_space sample_url = false /\
  image_events
    (run_trace (healthy false) [sample_phone; sample_message; sample_url]) =
  [SendImage (cleanPhone sample_phone) sample_url
     (sample_basename sample_url) sample_message Fulfilled].
Proof.
  split; [reflexivity|].
  exact (image_argument_resolution (healthy false) sample_phone
           sample_message sample_url [] eq_refl).
Defined.



(** C2, as stated, fails: the text send is rejected, so the run never
    looks for the missing file; it exits with status 1, and no error line
    mentions the file. *)
Lemma missing_image_unmentioned_when_text_rejected :
  all_space sample_image = false /\
  begins_with_http sample_image = false /\
  existsSync text_rejected (path_resolve text_rejected sample_image) = false /\
  existsb (error_mentions (path_resolve text_rejected sample_image))
    (run_trace text_rejected [sample_phone; sample_message; sample_image])
    = false /\
  run_end text_rejected [sample_phone; sample_message; sample_image]
    = Exited 1.
Proof. repeat split; vm_compute; reflexivity. Qed.

(** C2, amended: when the image argument is non-blank, does not begin with
    [http://] or [https://] and resolves to a path that does not exist, the
    process exits with status 1 by [process.exit] (never by an unhandled
    rejection); and when the run gets to the image (the session is open and
    the text was sent) it prints the error line that names the resolved
    path, and attempts no image send. *)
Theorem missing_image_exits_nonzero (w : World)
    (phone message p : jsstring) (rest : list jsstring) :
  all_space p = false ->
  begins_with_http p = false ->
  existsSync w (path_resolve w p) = false ->
  let tr := run_trace w (phone :: message :: p :: rest) in
  let line :=
    ConsoleError [Str (lit "Error during WhatsApp automation:");
                  Str (lit "Image file not found: " ++ path_resolve w p)] in
  run_end w (phone :: message :: p :: rest) = Exited 1 /\
  (image_step_reached w phone message = true ->
   In line tr /\
   error_mentions (path_resolve w p) line = true /\
   image_events tr = [ExistsSync (path_resolve w p) false]).
Proof.
  intros Hs Hh He tr line. split.
  - revert Hs Hh He. run_cases; simpl; congruence.
  - intros Hr. split; [|split].
    + subst tr line. unfold image_step_reached in Hr. revert Hs Hh He Hr.
      run_cases; simpl; try congruence; intros; tauto.
    + subst line. cbn [error_mentions existsb text_of].
      rewrite contains_suffix. apply orb_true_r.
    + subst tr. unfold image_step_reached in Hr. revert Hs Hh He Hr.
      run_cases; simpl; congruence.
Qed.

Lemma missing_image_exits_nonzero_witness :
  all_space sample_image = false /\
  begins_with_http sample_image = false /\
  existsSync (healthy false) (path_resolve (healthy false) sample_image)
    = false /\
  run_end (healthy false) [sample_phone; sample_message; sample_image]
    = Exited 1 /\
  (image_step_reached (healthy false) sample_phone sample_message = true ->
   In (ConsoleError
         [Str (lit "Error during WhatsApp automation:");
          Str (lit "Image file not found: /srv/wa/flyer.png")])
      (run_trace (healthy false)
         [sample_phone; sample_message; sample_image]) /\
   error_mentions (lit "/srv/wa/flyer.png")
     (ConsoleError
        [Str (lit "Error during WhatsApp automation:");
         Str (lit "Image file not found: /srv/wa/flyer.png")]) = true /\
   image_events
     (run_trace (healthy false)
        [sample_phone; sample_message; sample_image])
   = [ExistsSync (lit "/srv/wa/flyer.png") false]).
Proof.
  split; [reflexivity|]. split; [reflexivity|]. split; [reflexivity|].
  exact (missing_image_exits_nonzero (healthy false) sample_phone
           sample_message sample_image [] eq_refl eq_refl eq_refl).
Defined.

(** C9, as stated, fails: the session is open and the text is sent, but
    the local image is not there; the message then goes out once, as text,
    and no image send follows. *)
Lemma message_sent_once_when_image_missing :
  all_space sample_image = false /\
  sends (run_trace (healthy false)
           [sample_phone; sample_message; sample_image])
  = [SendText (cleanPhone sample_phone) sample_message Fulfilled].
Proof. split; vm_compute; reflexivity. Qed.

(** C9, amended: for a non-blank image argument, when the session is
    open, the text send is fulfilled, the image is available (a URL, or a
    local file that exists) and the image send is fulfilled, the run makes
    exactly two sends to the recipient, both fulfilled and both carrying
    the message: the text first, then the image with the message as its
    caption.  In every run with a non-blank image argument the sends are
    none, the text alone, or the fulfilled text followed by the image with
    the message as its caption: an image send is never first. *)
Theorem message_sent_as_text_then_caption (w : World)
    (phone message p : jsstring) (rest : list jsstring) :
  all_space p = false ->
  let tr := run_trace w (phone :: message :: p :: rest) in
  let file := image_target w p in
  let image_send (r : settled) :=
    SendImage (cleanPhone phone) file (path_basename w file) message r in
  (image_step_reached w phone message = true ->
   image_available w p = true ->
   sendImage_result w (cleanPhone phone) file (path_basename w file) message
     = Fulfilled ->
   sends tr
   = [SendText (cleanPhone phone) message Fulfilled; image_send Fulfilled]) /\
  (sends tr = [] \/
   (exists r, sends tr = [SendText (cleanPhone phone) message r]) \/
   (exists r,
      sends tr
      = [SendText (cleanPhone phone) message Fulfilled; image_send r])).
Proof.
  intros Hs tr file image_send. subst tr file image_send.
  unfold image_step_reached, image_available, image_target.
  split.
  - revert Hs. run_cases; simpl; congruence.
  - revert Hs. run_cases; simpl; intros _; eauto.
Qed.

Lemma message_sent_as_text_then_caption_witness :
  all_space sample_image = false /\
  (image_step_reached (healthy true) sample_phone sample_message = true ->
   image_available (healthy true) sample_image = true ->
   sendImage_result (healthy true) (cleanPhone sample_phone)
     (image_target (healthy true) sample_image)
     (path_basename (healthy true) (image_target (healthy true) sample_image))
     sample_message = Fulfilled ->
   sends (run_trace (healthy true)
            [sample_phone; sample_message; sample_image])
   = [SendText (lit "15550100199@c.us") sample_message Fulfilled;
      SendImage (lit "15550100199@c.us") (lit "/srv/wa/flyer.png")
        (lit "flyer.png") sample_message Fulfilled]) /\
  (sends (run_trace (healthy true)
            [sample_phone; sample_message; sample_image]) = [] \/
   (exists r,
      sends (run_trace (healthy true)
               [sample_phone; sample_message; sample_image])
      = [SendText (cleanPhone sample_phone) sample_message r]) \/
   (exists r,
      sends (run_trace (healthy true)
               [sample_phone; sample_message; sample_image])
      = [SendText (lit "15550100199@c.us") sample_message Fulfilled;
         SendImage (lit "15550100199@c.us") (lit "/srv/wa/flyer.png")
           (lit "flyer.png") sample_message r])).
Proof.
  split; [reflexivity|].
  exact (message_sent_as_text_then_caption (healthy true) sample_phone
           sample_message sample_image [] eq_refl).
Defined.

(** C10: when the run gets to the image (the session is open and the text
    send was fulfilled) and the image step fails, because the local file is
    not there or because the image send is rejected, the process exits with
    status 1 although the text was delivered: the fulfilled text send is in
    the trace of the failed run. *)
Theorem failed_exit_after_text_delivered (w : World)
    (phone message p : jsstring) (rest : list jsstring) :
  all_space p = false ->
  image_step_reached w phone message = true ->
  image_available w p = false \/
  is_fulfilled
    (sendImage_result w (cleanPhone phone) (image_target w p)
       (path_basename w (image_target w p)) message) = false ->
  run_end w (phone :: message :: p :: rest) = Exited 1 /\
  In (SendText (cleanPhone phone) message Fulfilled)
     (run_trace w (phone :: message :: p :: rest)) /\
  existsb image_step_failed (run_trace w (phone :: message :: p :: rest))
    = true.
Proof.
  unfold image_step_reached, image_available, image_target.
  intros Hs Hr Hf. revert Hs Hr Hf.
  run_cases; simpl; intros Hs Hr [Hf|Hf]; try discriminate;
    repeat split; tauto.
Qed.

Lemma failed_exit_after_text_delivered_witness :
  all_space sample_image = false /\
  image_step_reached (healthy false) sample_phone sample_message = true /\
  image_available (healthy false) sample_image = false /\
  run_end (healthy false) [sample_phone; sample_message; sample_image]
    = Exited 1 /\
  In (SendText (cleanPhone sample_phone) sample_message Fulfilled)
     (run_trace (healthy false)
        [sample_phone; sample_message; sample_image]) /\
  existsb image_step_failed
    (run_trace (healthy false) [sample_phone; sample_message; sample_image])
    = true.
Proof.
  split; [reflexivity|]. split; [reflexivity|]. split; [reflexivity|].
  apply (failed_exit_after_text_delivered (healthy false) sample_phone
           sample_message sample_image []);
    [reflexivity | reflexivity | left; reflexivity].
Defined.

Lemma starts_with_iff (p s : jsstring) :
  starts_with p s = true <-> exists r, s = p ++ r.
Proof.
  split.
  - unfold starts_with. revert s.
    induction p as [|a p IH]; intros s H; [exists s; reflexivity|].
    destruct s as [|b s]; [discriminate H|]. simpl in H.
    destruct (N.eqb_spec a b) as [->|]; [|discriminate H].
    destruct (IH s H) as (r & ->). exists r. reflexivity.
  - intros (r & ->). apply starts_with_self_app.
Qed.

(** X2: the test [/^https?:\/\//] of the script accepts exactly the
    strings that begin with the lower-case [http://] or [https://]. *)
Theorem url_test_accepts_http_prefixes (s : jsstring) :
  test_http_regex s = true <->
  (exists r, s = lit "http://" ++ r) \/ (exists r, s = lit "https://" ++ r).
Proof.
  rewrite test_http_regex_spec. unfold begins_with_http.
  rewrite orb_true_iff, !starts_with_iff. reflexivity.
Qed.

(** X3: a session that was opened is closed again, with one exception.
    A run calls [client.kill()] exactly when [wa.create] is fulfilled and
    the [try] block does not fail with [undefined] or [null]: when a send
    is rejected with [undefined] or [null], reading [err.message] throws in
    the catch block, and the run exits without having called
    [client.kill()]. *)
Theorem opened_session_is_killed (w : World) (phone message : jsstring)
    (rest : list jsstring) :
  existsb is_kill (run_trace w (phone :: message :: rest)) = true <->
  create_result w = Fulfilled /\
  forall err, Observe.try_failure w phone message (head rest) = Some err ->
    is_nullish err = false.
Proof.
  unfold Observe.try_failure, image_available, image_target.
  run_cases; simpl; (split; [intros H | intros (Hc & Hn)]);
    try discriminate H; try discriminate Hc.
  all: try (split; [reflexivity|]; intros err' E; use_answers;
            simpl in E; simplify_eq; reflexivity).
  all: try reflexivity.
  all: exfalso; use_answers; simpl in *;
    first [ discriminate
          | specialize (Hn _ eq_refl); simpl in Hn; discriminate Hn ].
Qed.

End SendMessageSpec.

(** ** The scheduling engine *)
Module SchedulerSpec.
Import Scheduler.

Local Open Scope nat_scope.

Section Selection.
Variables (m : Mode) (t : Z).

Lemma sooner_irrefl (a : option Z) : sooner a a = false.
Proof. destruct a as [x|]; simpl; [apply Z.ltb_irrefl | reflexivity]. Qed.

Lemma sooner_trans (a b c : option Z) :
  sooner a b = true -> sooner b c = true -> sooner a c = true.
Proof.
  destruct a as [x|], b as [y|], c as [z|]; simpl; try discriminate; auto.
  rewrite !Z.ltb_lt. lia.
Qed.

(** When [a] is not strictly earlier than [b], then [b] is earlier or they
    are the same. *)
Lemma not_sooner (a b : option Z) :
  sooner a b = false -> sooner b a = true \/ a = b.
Proof.
  destruct a as [x|], b as [y|]; simpl; try discriminate; auto.
  rewrite Z.ltb_ge, Z.ltb_lt. intros H.
  destruct (Z.eq_dec x y) as [->|]; [right; reflexivity | left; lia].
Qed.

Lemma beats_trans i j i' j' i'' j'' :
  beats m i j i' j' -> beats m i' j' i'' j'' -> beats m i j i'' j''.
Proof.
  unfold beats. intros [H1|[E1 L1]] [H2|[E2 L2]].
  - left. eapply sooner_trans; eauto.
  - left. rewrite <- E2. exact H1.
  - left. rewrite E1. exact H2.
  - right. split; [congruence | lia].
Qed.

(** One scan returns the due Job that goes first: it is due, and it beats
    the candidate it started from and every other due Job of the rows
    scanned. *)
Lemma scan_first (q : list Job) : forall (base : nat) (best : option (nat * Job)),
  (forall bi bj, best = Some (bi, bj) -> bi < base) ->
  match scan m t base q best with
  | None => best = None /\ forall k j, q !! k = Some j -> is_due m t j = false
  | Some (i, j) =>
      (best = Some (i, j) \/
       exists k, i = base + k /\ q !! k = Some j /\ is_due m t j = true) /\
      (forall bi bj, best = Some (bi, bj) ->
         (bi = i /\ bj = j) \/ beats m i j bi bj) /\
      (forall k j', q !! k = Some j' -> is_due m t j' = true ->
         base + k = i \/ beats m i j (base + k) j')
  end.
Proof.
  induction q as [|x q IH]; intros base best Hb.
  - simpl. destruct best as [[i j]|].
    + split; [left; reflexivity|]. split.
      * intros bi bj [= -> ->]. left; split; reflexivity.
      * intros k j' H. discriminate H.
    + split; [reflexivity|]. intros k j H. discriminate H.
  - cbn [scan].
    set (best' := if is_due m t x then _ else best).
    assert (Hb' : forall bi bj, best' = Some (bi, bj) -> bi < S base).
    { subst best'. intros bi bj.
      destruct (is_due m t x); [|intros H; apply Hb in H; lia].
      destruct best as [[ci cj]|].
      - destruct (sooner (rank m x) (rank m cj)).
        + intros [= <- <-]. lia.
        + intros H. apply Hb in H. lia.
      - intros [= <- <-]. lia. }
    specialize (IH (S base) best' Hb').
    destruct (scan m t (S base) q best') as [[i j]|].
    + destruct IH as (Hsrc & Hbest & Hall).
      (* the candidate after [x] relates to the one before it *)
      assert (Hx : is_due m t x = true -> base = i \/ beats m i j base x).
      { intros Hd. subst best'. rewrite Hd in *.
        destruct best as [[ci cj]|].
        - destruct (sooner (rank m x) (rank m cj)) eqn:Hs.
          + destruct (Hbest base x eq_refl) as [[-> _]|H]; auto.
          + destruct (Hbest ci cj eq_refl) as [[-> ->]|H].
            * right. destruct (not_sooner _ _ Hs) as [Hlt|Heq].
              -- left. exact Hlt.
              -- right. split; [congruence|]. apply (Hb i j eq_refl).
            * right. eapply beats_trans; [exact H|].
              destruct (not_sooner _ _ Hs) as [Hlt|Heq].
              -- left. exact Hlt.
              -- right. split; [congruence|]. apply (Hb ci cj eq_refl).
        - destruct (Hbest base x eq_refl) as [[-> _]|H]; auto. }
      split; [|split].
      * destruct Hsrc as [Hsrc|(k & -> & Hk & Hd)].
        -- subst best'. destruct (is_due m t x) eqn:Hd; [|left; exact Hsrc].
           destruct best as [[ci cj]|].
           ++ destruct (sooner (rank m x) (rank m cj)).
              ** injection Hsrc as <- <-. right. exists 0.
                 split; [lia|]. split; [reflexivity | exact Hd].
              ** left. exact Hsrc.
           ++ injection Hsrc as <- <-. right. exists 0.
              split; [lia|]. split; [reflexivity | exact Hd].
        -- right. exists (S k). split; [lia|]. split; assumption.
      * intros bi bj ->. subst best'.
        destruct (is_due m t x) eqn:Hd; [|apply (Hbest bi bj eq_refl)].
        destruct (sooner (rank m x) (rank m bj)) eqn:Hs;
          [|apply (Hbest bi bj eq_refl)].
        right. destruct (Hbest base x eq_refl) as [[<- <-]|H].
        -- left. exact Hs.
        -- eapply beats_trans; [exact H|]. left. exact Hs.
      * intros [|k] j' Hk Hd.
        -- injection Hk as <-. rewrite Nat.add_0_r. apply Hx, Hd.
        -- replace (base + S k) with (S base + k) by lia.
           apply Hall; assumption.
    + destruct IH as (Hnone & Hall). subst best'.
      destruct (is_due m t x) eqn:Hd.
      * destruct best as [[ci cj]|];
          [destruct (sooner (rank m x) (rank m cj))|]; discriminate.
      * split; [exact Hnone|].
        intros [|k] j Hk; [injection Hk as <-; exact Hd | eapply Hall, Hk].
Qed.

End Selection.

Lemma select_Some (m : Mode) (st : Engine) (i : nat) (j : Job) :
  select m st = Some (i, j) ->
  queue st !! i = Some j /\
  is_due m (now st) j = true /\
  forall k j', queue st !! k = Some j' -> is_due m (now st) j' = true ->
    k = i \/ beats m i j k j'.
Proof.
  unfold select. intros H.
  pose proof (scan_first m (now st) (queue st) 0 None) as S.
  rewrite H in S. destruct S as (Hsrc & _ & Hall); [discriminate|].
  destruct Hsrc as [Hsrc|(k & -> & Hk & Hd)]; [discriminate|].
  simpl. repeat split; [exact Hk | exact Hd | exact Hall].
Qed.

Lemma select_None (m : Mode) (st : Engine) :
  select m st = None ->
  forall k j, queue st !! k = Some j -> is_due m (now st) j = false.
Proof.
  unfold select. intros H.
  pose proof (scan_first m (now st) (queue st) 0 None) as S.
  rewrite H in S. destruct S as (_ & Hall); [discriminate|]. exact Hall.
Qed.

Lemma is_due_pending (m : Mode) (t : Z) (j : Job) :
  is_due m t j = true -> status j = PENDING.
Proof.
  unfold is_due, is_pending. destruct (status j); simpl; congruence.
Qed.

Lemma next_wake_Some (q : list Job) (t : Z) :
  next_wake q = Some t ->
  exists k j, q !! k = Some j /\ is_pending j = true /\ scheduled_at j = Some t.
Proof.
  revert t. induction q as [|x q IH]; intros t; simpl; [discriminate|].
  destruct (is_pending x) eqn:Hp.
  - destruct (scheduled_at x) as [a|] eqn:Ha.
    + destruct (next_wake q) as [b|].
      * intros [= <-]. destruct (Z.min_dec a b) as [->| ->].
        -- exists 0, x. auto.
        -- destruct (IH b eq_refl) as (k & j & ? & ? & ?).
           exists (S k), j. auto.
      * intros [= <-]. exists 0, x. auto.
    + intros H. destruct (IH t H) as (k & j & ? & ? & ?).
      exists (S k), j. auto.
  - intros H. destruct (IH t H) as (k & j & ? & ? & ?).
    exists (S k), j. auto.
Qed.

Lemma next_wake_None (q : list Job) :
  next_wake q = None ->
  forall k j, q !! k = Some j -> is_pending j = true -> scheduled_at j = None.
Proof.
  induction q as [|x q IH]; simpl; intros H k j Hk Hp; [discriminate Hk|].
  destruct k as [|k].
  - injection Hk as ->. rewrite Hp in H.
    destruct (scheduled_at j); [destruct (next_wake q); discriminate|].
    reflexivity.
  - apply (IH) with (k := k); auto.
    destruct (if is_pending x then scheduled_at x else None);
      [destruct (next_wake q); discriminate | exact H].
Qed.

Lemma suspend_queue (m : Mode) (st : Engine) :
  queue (suspend m st) = queue st.
Proof.
  unfold suspend. destruct m; [reflexivity|].
  destruct (select Scheduled st); [reflexivity|].
  destruct (next_wake (queue st)); reflexivity.
Qed.

Lemma suspend_log (m : Mode) (st : Engine) : log (suspend m st) = log st.
Proof.
  unfold suspend. destruct m; [reflexivity|].
  destruct (select Scheduled st); [reflexivity|].
  destruct (next_wake (queue st)); reflexivity.
Qed.

(** After the engine has suspended, a scan that finds nothing means that
    nothing is [PENDING] any more: the wait ends on a Job that is due. *)
Lemma nothing_selected_nothing_pending (m : Mode) (st : Engine) :
  select m (suspend m st) = None ->
  forall k j, queue st !! k = Some j -> is_pending j = false.
Proof.
  intros H k j Hk. destruct (is_pending j) eqn:Hp; [exfalso | reflexivity].
  destruct m.
  - pose proof (select_None _ _ H k j) as Hd.
    rewrite suspend_queue in Hd. specialize (Hd Hk).
    unfold is_due in Hd. rewrite Hp in Hd. discriminate.
  - unfold suspend in H.
    destruct (select Scheduled st) eqn:Hsel; [congruence|].
    destruct (next_wake (queue st)) as [t|] eqn:Hw.
    + destruct (next_wake_Some _ _ Hw) as (k' & j' & Hk' & Hp' & Ht').
      pose proof (select_None _ _ H k' j' Hk') as Hd. simpl in Hd.
      unfold is_due in Hd. rewrite Hp', Ht' in Hd. simpl in Hd.
      apply Z.leb_gt in Hd. lia.
    + pose proof (select_None _ _ H k j Hk) as Hd.
      unfold is_due in Hd.
      rewrite Hp, (next_wake_None _ Hw k j Hk Hp) in Hd. discriminate.
Qed.

Lemma dispatch_job_queue (env : Env) (i : nat) (j : Job) (st : Engine) :
  queue (dispatch_job env i j st) =
  <[i := record_outcome (dispatch env (length (log st)) (mark_due j))
           (mark_due j)]> (queue st).
Proof. unfold dispatch_job. simpl. apply list_insert_insert_eq. Qed.

Lemma dispatch_job_log (env : Env) (i : nat) (j : Job) (st : Engine) :
  log (dispatch_job env i j st) =
  log st ++ [(i, dispatch env (length (log st)) (mark_due j))].
Proof. reflexivity. Qed.

Lemma record_outcome_not_pending (o : Outcome) (j : Job) :
  is_pending (record_outcome o j) = false.
Proof. unfold is_pending. simpl. destruct (success o); reflexivity. Qed.

Lemma pending_count_insert (q : list Job) : forall (i : nat) (j j' : Job),
  q !! i = Some j -> is_pending j = true -> is_pending j' = false ->
  S (pending_count (<[i := j']> q)) = pending_count q.
Proof.
  unfold pending_count.
  induction q as [|x q IH]; intros i j j' Hi Hp Hp'; [discriminate Hi|].
  destruct i as [|i]; simpl in *.
  - injection Hi as ->. rewrite Hp, Hp'. reflexivity.
  - destruct (is_pending x); simpl; erewrite IH; eauto.
Qed.

Lemma pending_count_zero (q : list Job) :
  pending_count q = 0 ->
  forall k j, q !! k = Some j -> is_pending j = false.
Proof.
  unfold pending_count.
  induction q as [|x q IH]; intros H k j Hk; [discriminate Hk|].
  simpl in H. destruct (is_pending x) eqn:Hx; [discriminate H|].
  destruct k as [|k]; [injection Hk as <-; exact Hx | eapply IH; eauto].
Qed.

Section Loop.
Variables (env : Env) (m : Mode).

(** A property that survives suspending and dispatching survives the
    loop. *)
Lemma loop_invariant (P : Engine -> Prop) :
  (forall st, P st -> P (suspend m st)) ->
  (forall st i j, P st -> select m st = Some (i, j) ->
     P (dispatch_job env i j st)) ->
  forall n st, P st -> P (loop env m n st).
Proof.
  intros Hs Hd. induction n as [|n IH]; intros st HP; [exact HP|].
  simpl. destruct (select m (suspend m st)) as [[i j]|] eqn:E.
  - apply IH. apply Hd; [apply Hs, HP | exact E].
  - apply Hs, HP.
Qed.

(** The loop ends with nothing [PENDING], given one round per Job that
    waits. *)
Lemma loop_leaves_nothing_pending : forall n st,
  pending_count (queue st) <= n ->
  forall k j, queue (loop env m n st) !! k = Some j -> is_pending j = false.
Proof.
  induction n as [|n IH]; intros st Hn k j.
  - simpl. apply pending_count_zero. lia.
  - simpl. destruct (select m (suspend m st)) as [[i x]|] eqn:E.
    + apply IH.
      destruct (select_Some _ _ _ _ E) as (Hi & Hd & _).
      rewrite suspend_queue in Hi.
      rewrite dispatch_job_queue, suspend_queue.
      pose proof (pending_count_insert (queue st) i x
                    (record_outcome
                       (dispatch env (length (log (suspend m st))) (mark_due x))
                       (mark_due x)) Hi) as Hc.
      rewrite <- Hc in Hn; [lia | | apply record_outcome_not_pending].
      apply is_due_pending in Hd. unfold is_pending. rewrite Hd. reflexivity.
    + rewrite suspend_queue.
      apply (nothing_selected_nothing_pending m st E).
Qed.

End Loop.

Lemma parse_lookup (rows : list Row) (i : nat) (j : Job) :
  parse rows !! i = Some j ->
  exists r, rows !! i = Some r /\ j = parse_row r.
Proof.
  unfold parse. revert i.
  induction rows as [|r rows IH]; intros [|i] H; simpl in H;
    try discriminate H.
  - injection H as <-. exists r. split; reflexivity.
  - apply IH, H.
Qed.

Lemma dispatch_order_app (l : list (nat * Outcome)) (i : nat) (o : Outcome) :
  map fst (l ++ [(i, o)]) = map fst l ++ [i].
Proof. rewrite map_app. reflexivity. Qed.

Lemma elem_of_dispatch_order (l : list (nat * Outcome)) (i : nat)
    (o : Outcome) :
  (i, o) ∈ l -> i ∈ map fst l.
Proof.
  intros H. apply list_elem_of_In, in_map_iff. exists (i, o).
  split; [reflexivity | apply list_elem_of_In, H].
Qed.

Section Tracking.
Variables (env : Env) (m : Mode) (rows : list Row).

Lemma tracks_load : tracks rows (load env rows).
Proof.
  split; simpl.
  - unfold parse. apply length_map.
  - intros i j H. destruct (parse_lookup _ _ _ H) as (r & Hr & ->).
    exists r. split; [exact Hr|]. split; [reflexivity|].
    simpl. destruct (row_valid r); repeat split; congruence.
  - intros i j H _. destruct (parse_lookup _ _ _ H) as (r & Hr & ->).
    split; [reflexivity | apply not_elem_of_nil].
  - intros i j H. destruct (parse_lookup _ _ _ H) as (r & Hr & ->).
    simpl. destruct (row_valid r); intros [?|?]; discriminate.
  - constructor.
  - intros i o H. exfalso. eapply not_elem_of_nil, H.
Qed.

Lemma tracks_suspend (st : Engine) :
  tracks rows st -> tracks rows (suspend m st).
Proof.
  intros [H1 H2 H3 H4 H5 H6].
  split; unfold dispatch_order in *;
    rewrite ?suspend_queue, ?suspend_log; assumption.
Qed.

Lemma tracks_dispatch (st : Engine) (i : nat) (j : Job) :
  tracks rows st ->
  queue st !! i = Some j -> status j = PENDING ->
  tracks rows (dispatch_job env i j st).
Proof.
  intros [H1 H2 H3 H4 H5 H6] Hi Hp.
  pose proof (lookup_lt_Some _ _ _ Hi) as Hlt.
  destruct (H3 i j Hi Hp) as (Hatt & Hnew).
  set (o := dispatch env (length (log st)) (mark_due j)).
  split; unfold dispatch_order in *;
    rewrite ?dispatch_job_queue, ?dispatch_job_log, ?dispatch_order_app;
    fold o.
  - rewrite length_insert. exact H1.
  - intros k x Hk. destruct (decide (i = k)) as [<-|Hne].
    + rewrite list_lookup_insert_eq in Hk by exact Hlt. injection Hk as <-.
      destruct (H2 i j Hi) as (r & Hr & Ht & _ & Hv).
      exists r. split; [exact Hr|]. split; [exact Ht|]. simpl.
      split; [destruct (success o); discriminate|].
      split.
      * destruct (success o); discriminate.
      * intros Hf. apply Hv in Hf. congruence.
    + rewrite list_lookup_insert_ne in Hk by exact Hne. apply H2, Hk.
  - intros k x Hk Hx. destruct (decide (i = k)) as [<-|Hne].
    + rewrite list_lookup_insert_eq in Hk by exact Hlt. injection Hk as <-.
      simpl in Hx. destruct (success o); discriminate.
    + rewrite list_lookup_insert_ne in Hk by exact Hne.
      destruct (H3 k x Hk Hx) as (Ha & Hn). split; [exact Ha|].
      rewrite elem_of_app, list_elem_of_singleton. intros [?|?]; auto.
  - intros k x Hk Hx. rewrite elem_of_app, list_elem_of_singleton.
    destruct (decide (i = k)) as [<-|Hne]; [right; reflexivity|].
    rewrite list_lookup_insert_ne in Hk by exact Hne.
    left. apply (H4 k x Hk Hx).
  - apply NoDup_app. split; [exact H5|]. split; [|apply NoDup_singleton].
    intros x Hx Hx'. apply list_elem_of_singleton in Hx'. subst x. auto.
  - intros k o' Hk. apply elem_of_app in Hk as [Hk|Hk].
    + destruct (H6 k o' Hk) as (x & Hx & Hrest).
      exists x. split; [|exact Hrest].
      rewrite list_lookup_insert_ne; [exact Hx|].
      intros <-. apply Hnew. eapply elem_of_dispatch_order, Hk.
    + apply list_elem_of_singleton in Hk. injection Hk as -> ->.
      eexists. split; [apply list_lookup_insert_eq, Hlt|]. simpl.
      split; [reflexivity|]. split; [rewrite Hatt; reflexivity|].
      intros ->. reflexivity.
Qed.

Lemma tracks_loop (n : nat) (st : Engine) :
  tracks rows st -> tracks rows (loop env m n st).
Proof.
  apply loop_invariant.
  - apply tracks_suspend.
  - intros st' i j Ht Hsel.
    destruct (select_Some _ _ _ _ Hsel) as (Hi & Hd & _).
    apply tracks_dispatch; [exact Ht | exact Hi |].
    eapply is_due_pending, Hd.
Qed.

Lemma pending_count_load : pending_count (queue (load env rows)) <= length rows.
Proof.
  simpl. unfold pending_count, parse.
  rewrite <- (length_map parse_row rows). apply List.filter_length_le.
Qed.

Lemma tracks_run : tracks rows (run env m rows).
Proof. apply tracks_loop, tracks_load. Qed.

Lemma run_nothing_pending (k : nat) (j : Job) :
  queue (run env m rows) !! k = Some j -> is_pending j = false.
Proof. apply loop_leaves_nothing_pending, pending_count_load. Qed.



End Tracking.

Lemma is_due_same (m : Mode) (t : Z) (j j' : Job) :
  status j = status j' -> scheduled_at j = scheduled_at j' ->
  is_due m t j = is_due m t j'.
Proof. unfold is_due, is_pending. intros -> ->. reflexivity. Qed.

Lemma dispatched_before_snoc (a b i : nat) (order : list nat) :
  dispatched_before a b order -> dispatched_before a b (order ++ [i]).
Proof.
  intros (l1 & l2 & l3 & ->). exists l1, l2, (l3 ++ [i]).
  rewrite <- !app_assoc. simpl. rewrite <- !app_assoc. reflexivity.
Qed.

Lemma dispatched_before_last (a b : nat) (order : list nat) :
  a ∈ order -> dispatched_before a b (order ++ [b]).
Proof.
  intros H. apply list_elem_of_split in H as (l1 & l2 & ->).
  exists l1, l2, []. rewrite <- app_assoc. reflexivity.
Qed.

Section Ties.
Variables (env : Env) (m : Mode) (rows : list Row).
Variables (a b : nat) (ra rb : Row).
Hypothesis a_before_b : a < b.
Hypothesis row_a : rows !! a = Some ra.
Hypothesis row_b : rows !! b = Some rb.
Hypothesis valid_a : row_valid ra = true.
Hypothesis valid_b : row_valid rb = true.
Hypothesis same_time : Scheduled_Time ra = Scheduled_Time rb.

Lemma pair_order_load : pair_order a b (load env rows).
Proof.
  left. exists (parse_row ra), (parse_row rb). simpl. unfold parse.
  assert (L : forall i r, rows !! i = Some r ->
                map parse_row rows !! i = Some (parse_row r)).
  { clear. induction rows as [|x l IH]; intros [|i] r H; simpl in *;
      try discriminate; [congruence | apply IH, H]. }
  rewrite (L a ra row_a), (L b rb row_b), valid_a, valid_b. auto.
Qed.

Lemma pair_order_suspend (st : Engine) :
  pair_order a b st -> pair_order a b (suspend m st).
Proof.
  unfold pair_order, dispatch_order.
  rewrite suspend_queue, suspend_log. auto.
Qed.

(** While both rows wait, the later one is not selected: the earlier one
    is due whenever the later one is, with the same rank. *)
Lemma tie_not_selected (st : Engine) (ja jb : Job) :
  tracks rows st ->
  queue st !! a = Some ja -> queue st !! b = Some jb ->
  status ja = PENDING -> status jb = PENDING ->
  select m st <> Some (b, jb).
Proof.
  intros T Ha Hb Hpa Hpb Hsel.
  destruct (select_Some _ _ _ _ Hsel) as (_ & Hd & Hmin).
  destruct (tracks_row _ _ T a ja Ha) as (r & Hr & Hta & _).
  destruct (tracks_row _ _ T b jb Hb) as (r' & Hr' & Htb & _).
  assert (r = ra) by congruence. assert (r' = rb) by congruence.
  subst r r'.
  assert (Hsame : scheduled_at ja = scheduled_at jb) by congruence.
  assert (Hda : is_due m (now st) ja = true).
  { rewrite (is_due_same m (now st) ja jb); [exact Hd | congruence | exact Hsame]. }
  destruct (Hmin a ja Ha Hda) as [Heq|[Hs|[_ Hlt]]]; [lia | | lia].
  assert (E : rank m jb = rank m ja) by (destruct m; simpl; congruence).
  rewrite E, sooner_irrefl in Hs. discriminate.
Qed.

Lemma pair_order_dispatch (st : Engine) (i : nat) (j : Job) :
  tracks rows st -> select m st = Some (i, j) ->
  pair_order a b st -> pair_order a b (dispatch_job env i j st).
Proof.
  intros T Hsel Hpo.
  destruct (select_Some _ _ _ _ Hsel) as (Hi & Hd & _).
  unfold pair_order, dispatch_order in *.
  rewrite dispatch_job_queue, dispatch_job_log, dispatch_order_app.
  destruct Hpo as [(ja & jb & Ha & Hb & Hpa & Hpb)|[(Ha & jb & Hb & Hpb)|H]].
  - assert (Hib : i <> b).
    { intros ->. assert (j = jb) by congruence. subst j.
      exact (tie_not_selected st ja jb T Ha Hb Hpa Hpb Hsel). }
    destruct (decide (i = a)) as [->|Hia].
    + right; left. split.
      * rewrite elem_of_app, list_elem_of_singleton. auto.
      * exists jb. rewrite list_lookup_insert_ne by lia. auto.
    + left. exists ja, jb.
      rewrite !list_lookup_insert_ne by auto. auto.
  - destruct (decide (i = b)) as [->|Hib].
    + right; right. apply dispatched_before_last, Ha.
    + right; left. split.
      * rewrite elem_of_app. auto.
      * exists jb. rewrite list_lookup_insert_ne by auto. auto.
  - right; right. apply dispatched_before_snoc, H.
Qed.

Lemma pair_order_run : pair_order a b (run env m rows).
Proof.
  unfold run.
  apply (loop_invariant env m
           (fun st => tracks rows st /\ pair_order a b st)).
  - intros st [T P]. split; [apply tracks_suspend, T | apply pair_order_suspend, P].
  - intros st i j [T P] Hsel. split.
    + destruct (select_Some _ _ _ _ Hsel) as (Hi & Hd & _).
      apply tracks_dispatch; [exact T | exact Hi | eapply is_due_pending, Hd].
    + apply pair_order_dispatch; assumption.
  - split; [apply tracks_load | apply pair_order_load].
Qed.

Lemma tie_dispatched_in_row_order :
  dispatched_before a b (dispatch_order (run env m rows)).
Proof.
  destruct pair_order_run as [(ja & jb & _ & Hb & _ & Hpb)|[(_ & jb & Hb & Hpb)|H]];
    [exfalso | exfalso | exact H].
  all: pose proof (run_nothing_pending env m rows b jb Hb) as Hn;
    unfold is_pending in Hn; rewrite Hpb in Hn; discriminate.
Qed.

End Ties.

Lemma split_unique (x : nat) (l1 : list nat) : forall l2 m1 m2,
  x ∉ l1 -> x ∉ m1 ->
  l1 ++ x :: l2 = m1 ++ x :: m2 -> l1 = m1 /\ l2 = m2.
Proof.
  induction l1 as [|y l1 IH]; intros l2 [|z m1] m2 H1 H2 E; simpl in E.
  - injection E as <-. auto.
  - injection E as <- _. exfalso. apply H2. left.
  - injection E as -> _. exfalso. apply H1. left.
  - injection E as -> E. rewrite not_elem_of_cons in H1, H2.
    destruct (IH l2 m1 m2) as [-> ->]; [tauto | tauto | exact E | auto].
Qed.

(** In an order without repetition, two rows stand one way round only. *)
Lemma dispatched_before_asym (a b : nat) (order : list nat) :
  NoDup order ->
  dispatched_before a b order -> dispatched_before b a order -> False.
Proof.
  intros N (l1 & l2 & l3 & E) (m1 & m2 & m3 & E').
  assert (G : order = (l1 ++ a :: l2) ++ b :: l3).
  { rewrite E, <- app_assoc. reflexivity. }
  pose proof N as N'. rewrite G in N. rewrite E' in N'.
  apply NoDup_app in N as (_ & Nl & _).
  apply NoDup_app in N' as (_ & Nm & _).
  assert (Hb : b ∉ l1 ++ a :: l2) by (intros H; apply (Nl b H); left).
  assert (Hb' : b ∉ m1) by (intros H; apply (Nm b H); left).
  assert (Ha : a ∉ b :: l3).
  { apply Nl. rewrite elem_of_app. right. left. }
  rewrite G in E'. destruct (split_unique b _ _ _ _ Hb Hb' E') as [_ ->].
  apply Ha. right. rewrite elem_of_app. right. left.
Qed.

Section Skipped.
Variables (env : Env) (m : Mode) (rows : list Row).

(** An invalid row is never dispatched. *)
Lemma run_skips_invalid (k : nat) (r : Row) :
  rows !! k = Some r -> row_valid r = false ->
  k ∉ dispatch_order (run env m rows).
Proof.
  intros Hr Hv Hin. pose proof (tracks_run env m rows) as T.
  apply list_elem_of_In, in_map_iff in Hin as ([k' o] & E & Hin).
  simpl in E. subst k'. apply list_elem_of_In in Hin.
  destruct (tracks_log _ _ T k o Hin) as (j & Hj & Hs & _).
  destruct (tracks_row _ _ T k j Hj) as (r' & Hr' & _ & _ & Hsk).
  assert (r' = r) by congruence. subst r'.
  apply Hsk in Hv. rewrite Hv in Hs. destruct (success o); discriminate.
Qed.

End Skipped.

Lemma dispatched_before_elem (a b : nat) (order : list nat) :
  dispatched_before a b order -> a ∈ order /\ b ∈ order.
Proof.
  intros (l1 & l2 & l3 & ->). split.
  - rewrite elem_of_app. right. left.
  - rewrite elem_of_app. right. right. rewrite elem_of_app. right. left.
Qed.

(** C4: of two rows with the same [Scheduled Time], or both without one,
    the later one is never dispatched before the earlier one, and when both
    are valid (an invalid row is skipped, not dispatched) both are
    dispatched, the earlier row first.  This holds in immediate and in
    scheduled mode, whatever the gateway answers and however long the calls
    take; each row is dispatched at most once, so the order is well
    defined. *)
Theorem ties_dispatched_in_row_order (env : Env) (m : Mode)
    (rows : list Row) (a b : nat) (ra rb : Row) :
  a < b ->
  rows !! a = Some ra -> rows !! b = Some rb ->
  Scheduled_Time ra = Scheduled_Time rb ->
  NoDup (dispatch_order (run env m rows)) /\
  ~ dispatched_before b a (dispatch_order (run env m rows)) /\
  (row_valid ra = true -> row_valid rb = true ->
   dispatched_before a b (dispatch_order (run env m rows))).
Proof.
  intros Hlt Ha Hb Ht.
  pose proof (tracks_nodup _ _ (tracks_run env m rows)) as N.
  assert (Hboth : row_valid ra = true -> row_valid rb = true ->
            dispatched_before a b (dispatch_order (run env m rows))).
  { intros Hva Hvb. eapply tie_dispatched_in_row_order; eassumption. }
  split; [exact N|]. split; [|exact Hboth].
  intros Hba. destruct (dispatched_before_elem _ _ _ Hba) as [Hb' Ha'].
  destruct (row_valid ra) eqn:Hva.
  - destruct (row_valid rb) eqn:Hvb.
    + exact (dispatched_before_asym a b _ N (Hboth eq_refl eq_refl) Hba).
    + exact (run_skips_invalid env m rows b rb Hb Hvb Hb').
  - exact (run_skips_invalid env m rows a ra Ha Hva Ha').
Qed.

Lemma ties_dispatched_in_row_order_witness :
  0 < 2 /\
  sample_rows !! 0 = Some row_hello /\
  sample_rows !! 2 = Some row_again /\
  Scheduled_Time row_hello = Scheduled_Time row_again /\
  NoDup (dispatch_order (run (sample_env "5550101") Scheduled sample_rows)) /\
  ~ dispatched_before 2 0
      (dispatch_order (run (sample_env "5550101") Scheduled sample_rows)) /\
  (row_valid row_hello = true -> row_valid row_again = true ->
   dispatched_before 0 2
     (dispatch_order (run (sample_env "5550101") Scheduled sample_rows))).
Proof.
  split; [lia|]. split; [reflexivity|]. split; [reflexivity|].
  split; [reflexivity|].
  apply (ties_dispatched_in_row_order (sample_env "5550101") Scheduled
           sample_rows 0 2 row_hello row_again);
    [lia | reflexivity | reflexivity | reflexivity].
Defined.



End SchedulerSpec.

(** ** Further properties of the dispatch command *)
Module ObserveSpec.
Import JS SendMessage Observe JSFacts SendMessageSpec.

#[local] Arguments lit : simpl never.

(** Two events that differ, possibly only in a literal of the script. *)
Ltac clash E :=
  solve [ discriminate E
        | exfalso; injection E; intros;
          match goal with
          | H : _ = _ |- _ => vm_compute in H; discriminate H
          end ].

(** Membership in a trace that is known: go through its events. *)
Ltac in_trace E :=
  repeat (destruct E as [E|E]; [try (clash E)|]);
  try (match type of E with False => destruct E end).

Ltac find_in_trace := repeat first [left; reflexivity | right].

(** X4: when [wa.create] is rejected the run is two steps long: the
    attempt, and the line [Error initializing wa-automate:] with the
    rejection value itself; the process exits with status 1.  Nothing is
    sent, no file is looked up and [client.kill()] is not called. *)
Theorem initialization_failure_run (w : World) (phone message : jsstring)
    (rest : list jsstring) (err : thrown) :
  create_result w = Rejected err ->
  run w (phone :: message :: rest)
  = ([WaCreate (Rejected err); init_error_line err], Exited 1).
Proof.
  intros H. unfold init_error_line. revert H.
  run_cases; simpl; congruence.
Qed.

Lemma initialization_failure_run_witness :
  create_result no_session
    = Rejected (OtherValue (lit "Timeout waiting for QR")) /\
  run no_session [sample_phone; sample_message; sample_image]
  = ([WaCreate (Rejected (OtherValue (lit "Timeout waiting for QR")));
      init_error_line (OtherValue (lit "Timeout waiting for QR"))],
     Exited 1).
Proof.
  split; [reflexivity|].
  exact (initialization_failure_run no_session sample_phone sample_message
           [sample_image] _ eq_refl).
Defined.

(** X5: a rejected text send ends the run: it prints no progress line,
    does nothing about the image and does not wait.  When the rejection
    value is [undefined] or [null], reading [err.message] throws in the
    catch block: the run prints that [TypeError] under
    [Error initializing wa-automate:] and exits with status 1 without
    calling [client.kill()].  For any other value the run prints
    [Error during WhatsApp automation:] with the message of the error (the
    value itself when it has no message), calls [client.kill()] once and
    exits with status 1; when that call is rejected too, its rejection is
    printed under [Error initializing wa-automate:]. *)
Theorem text_rejection_run (w : World) (phone message : jsstring)
    (rest : list jsstring) (err : thrown) :
  create_result w = Fulfilled ->
  sendText_result w (cleanPhone phone) message = Rejected err ->
  run w (phone :: message :: rest)
  = ([WaCreate Fulfilled;
      SendText (cleanPhone phone) message (Rejected err)]
     ++ (if is_nullish err then [init_error_line (type_error err)]
         else
           [automation_error_line err; Kill (kill_result w 0)]
           ++ match kill_result w 0 with
              | Fulfilled => []
              | Rejected err' => [init_error_line err']
              end),
     Exited 1).
Proof.
  intros Hc Ht. unfold automation_error_line, init_error_line.
  revert Hc Ht.
  run_cases; simpl; intros; simplify_eq; reflexivity.
Qed.

Lemma text_rejection_run_witness :
  create_result text_rejected_undefined = Fulfilled /\
  sendText_result text_rejected_undefined (cleanPhone sample_phone)
    sample_message = Rejected UndefinedValue /\
  run text_rejected_undefined [sample_phone; sample_message; sample_image]
  = ([WaCreate Fulfilled;
      SendText (cleanPhone sample_phone) sample_message
        (Rejected UndefinedValue);
      init_error_line
        (ErrorObject
           (lit "Cannot read properties of undefined (reading 'message')"))],
     Exited 1).
Proof.
  split; [reflexivity|]. split; [reflexivity|].
  exact (text_rejection_run text_rejected_undefined sample_phone
           sample_message [sample_image] _ eq_refl eq_refl).
Defined.

(** X6: the line [Error initializing wa-automate:] does not only report a
    failed [wa.create].  A run prints it exactly when its last call on the
    session library was rejected, whichever call that was: [wa.create], a
    [client.kill()], or a send that was rejected with [undefined] or
    [null].  The value printed is the rejection value of that call, or the
    [TypeError] that reading [message] of an [undefined] or [null]
    rejection value throws. *)
Theorem init_error_line_iff (w : World) (args : list jsstring) :
  (2 <= length args)%nat ->
  ((exists shown, In (init_error_line shown) (run_trace w args)) <->
   exists call, last (session_calls (run_trace w args)) = Some call /\
     step_failed call = true) /\
  (forall shown, In (init_error_line shown) (run_trace w args) ->
     exists call err,
       last (session_calls (run_trace w args)) = Some call /\
       rejection_of call = Some err /\
       (shown = err \/ (is_nullish err = true /\ shown = type_error err))).
Proof.
  intros H.
  destruct args as [|phone [|message rest]]; simpl in H; try lia.
  clear H. unfold init_error_line.
  run_cases; simpl; (split; [split|]).
  (* no such line in the trace, and the last call was fulfilled *)
  all: try (intros (shown & E); in_trace E; fail).
  all: try (intros (call & E & F); simplify_eq; discriminate F).
  all: try (intros shown E; in_trace E; fail).
  (* the line is in the trace *)
  all: try (intros _; eexists; split; [reflexivity | reflexivity]).
  all: try (intros _; eexists; find_in_trace).
  all: intros shown E; in_trace E; simplify_eq;
    do 2 eexists; (split; [reflexivity|]); (split; [reflexivity|]);
    first [left; reflexivity | right; split; reflexivity].
Qed.

Lemma init_error_line_iff_witness :
  (2 <= length [sample_phone; sample_message])%nat /\
  In (WaCreate Fulfilled)
     (run_trace text_rejected_undefined [sample_phone; sample_message]) /\
  In (init_error_line (type_error UndefinedValue))
     (run_trace text_rejected_undefined [sample_phone; sample_message]) /\
  ((exists shown,
      In (init_error_line shown)
         (run_trace text_rejected_undefined [sample_phone; sample_message]))
   <->
   exists call,
     last (session_calls
             (run_trace text_rejected_undefined
                [sample_phone; sample_message])) = Some call /\
     step_failed call = true) /\
  (forall shown,
     In (init_error_line shown)
        (run_trace text_rejected_undefined [sample_phone; sample_message]) ->
     exists call err,
       last (session_calls
               (run_trace text_rejected_undefined
                  [sample_phone; sample_message])) = Some call /\
       rejection_of call = Some err /\
       (shown = err \/ (is_nullish err = true /\ shown = type_error err))).
Proof.
  split; [simpl; lia|]. split; [vm_compute; tauto|].
  split; [vm_compute; tauto|].
  apply (init_error_line_iff text_rejected_undefined
           [sample_phone; sample_message]).
  simpl; lia.
Defined.

(** X7: the run waits, and then for 15000 ms, exactly when everything it
    was asked to send has been sent (the text and, when an image is given,
    the image); on any earlier failure it goes to the catch block without
    waiting. *)
Theorem waits_exactly_after_delivery (w : World)
    (phone message : jsstring) (rest : list jsstring) :
  (In (SetTimeout 15000) (run_trace w (phone :: message :: rest)) <->
   delivered_all w phone message (head rest) = true) /\
  (forall ms, In (SetTimeout ms) (run_trace w (phone :: message :: rest)) ->
     ms = 15000%Z).
Proof.
  unfold delivered_all, image_step_reached, image_available, image_target.
  run_cases; simpl; (split; [split; intros E | intros ms E]).
  all: try (in_trace E; congruence).
  all: try (use_answers; simpl in *; try discriminate E; find_in_trace).
Qed.

(** X8: a delivery can be reported as a failure.  When everything has been
    sent but the [client.kill()] that follows the wait is rejected, the run
    exits with status 1 although the text send was fulfilled.  For a
    rejection value other than [undefined] and [null] it prints the error
    line for that rejection and calls [client.kill()] a second time; for
    [undefined] or [null] reading [err.message] throws, the run prints that
    [TypeError] under [Error initializing wa-automate:] and there is no
    second call. *)
Theorem kill_rejection_fails_a_delivered_run (w : World)
    (phone message : jsstring) (rest : list jsstring) (err : thrown) :
  delivered_all w phone message (head rest) = true ->
  kill_result w 0 = Rejected err ->
  let tr := run_trace w (phone :: message :: rest) in
  run_end w (phone :: message :: rest) = Exited 1 /\
  In (SendText (cleanPhone phone) message Fulfilled) tr /\
  if is_nullish err then
    In (init_error_line (type_error err)) tr /\ kill_count tr = 1%nat
  else
    In (automation_error_line err) tr /\ kill_count tr = 2%nat.
Proof.
  unfold delivered_all, image_step_reached, image_available, image_target,
    automation_error_line, init_error_line, kill_count.
  intros Hd Hk. revert Hd Hk.
  run_cases; simpl; intros Hd Hk; try discriminate;
    use_answers; simpl in *; try discriminate;
    simplify_eq; simpl; (split; [reflexivity|]);
    (split; [find_in_trace|]); (split; [find_in_trace | reflexivity]).
Qed.

Lemma kill_rejection_fails_a_delivered_run_witness :
  delivered_all kill_rejected sample_phone sample_message
    (head [sample_image]) = true /\
  kill_result kill_rejected 0 = Rejected (ErrorObject (lit "Target closed")) /\
  run_end kill_rejected [sample_phone; sample_message; sample_image]
    = Exited 1 /\
  In (SendText (cleanPhone sample_phone) sample_message Fulfilled)
     (run_trace kill_rejected [sample_phone; sample_message; sample_image]) /\
  In (automation_error_line (ErrorObject (lit "Target closed")))
     (run_trace kill_rejected [sample_phone; sample_message; sample_image]) /\
  kill_count
    (run_trace kill_rejected [sample_phone; sample_message; sample_image])
  = 2%nat.
Proof.
  split; [reflexivity|]. split; [reflexivity|].
  exact (kill_rejection_fails_a_delivered_run kill_rejected sample_phone
           sample_message [sample_image] _ eq_refl eq_refl).
Defined.

(** X9: how often the session is closed.  [client.kill()] is not called
    when [wa.create] is rejected, nor when the [try] block fails with
    [undefined] or [null] before it gets to [client.kill()].  Otherwise it
    is called once, and a second time only when the call after a complete
    delivery is rejected with a value other than [undefined] and [null].
    It is never called more than twice. *)
Theorem kill_is_called_at_most_twice (w : World)
    (phone message : jsstring) (rest : list jsstring) :
  kill_count (run_trace w (phone :: message :: rest)) =
    match create_result w with
    | Rejected _ => 0%nat
    | Fulfilled =>
        match try_failure w phone message (head rest) with
        | Some err => if is_nullish err then 0%nat else 1%nat
        | None =>
            match kill_result w 0 with
            | Fulfilled => 1%nat
            | Rejected err => if is_nullish err then 1%nat else 2%nat
            end
        end
    end.
Proof.
  unfold try_failure, image_available, image_target, kill_count.
  run_cases; simpl in *; simplify_eq; first [reflexivity | congruence].
Qed.

(** X10: the progress lines tell what was sent.  A run prints
    [Message sent to <phone>] exactly when its text send was fulfilled, and
    [Image sent to <phone>] exactly when an image send was fulfilled; both
    lines show the phone argument as it was given, not the recipient that
    was used. *)
Theorem progress_lines_report_fulfilled_sends (w : World)
    (phone message : jsstring) (rest : list jsstring) :
  let tr := run_trace w (phone :: message :: rest) in
  (In (message_sent_line phone) tr <->
   In (SendText (cleanPhone phone) message Fulfilled) tr) /\
  (In (image_sent_line phone) tr <->
   exists file name,
     In (SendImage (cleanPhone phone) file name message Fulfilled) tr).
Proof.
  unfold message_sent_line, image_sent_line.
  run_cases; simpl; (split; split; intros E).
  all: try (in_trace E; fail).
  all: try (find_in_trace; fail).
  all: try (do 2 eexists; find_in_trace; fail).
  all: destruct E as (file & name & E); in_trace E.
Qed.

(** X11: two phone arguments reach the same recipient exactly when they
    have the same digits in the same order; every other character of the
    argument is immaterial. *)
Theorem same_recipient_iff_same_digits (p q : jsstring) :
  cleanPhone p = cleanPhone q <->
  List.filter is_digit p = List.filter is_digit q.
Proof.
  rewrite !cleanPhone_spec. split.
  - apply app_inv_tail.
  - intros ->. reflexivity.
Qed.

(** X12: the arguments are not validated beyond their number.  Whenever
    the session opens, the first send of the run is the text send of the
    message as it was given, to the digits of the phone argument followed
    by [@c.us]: a phone argument without a digit is sent to [@c.us], and an
    empty message is sent as an empty text. *)
Theorem text_send_is_attempted_unvalidated (w : World)
    (phone message : jsstring) (rest : list jsstring) :
  create_result w = Fulfilled ->
  let to := List.filter is_digit phone ++ lit "@c.us" in
  head (sends (run_trace w (phone :: message :: rest)))
  = Some (SendText to message (sendText_result w to message)).
Proof.
  intros Hc to. subst to. rewrite <- cleanPhone_spec. revert Hc.
  run_cases; unfold sends in *; simpl in *; congruence.
Qed.

Lemma text_send_is_attempted_unvalidated_witness :
  create_result (healthy true) = Fulfilled /\
  head (sends (run_trace (healthy true) [lit "n/a"; lit ""]))
  = Some (SendText (lit "@c.us") (lit "") Fulfilled).
Proof.
  split; [reflexivity|].
  exact (text_send_is_attempted_unvalidated (healthy true) (lit "n/a")
           (lit "") [] eq_refl).
Defined.

Lemma not_http_by_first_unit (c : N) (s : jsstring) :
  c <> 104 -> begins_with_http (c :: s) = false.
Proof.
  intros H. unfold begins_with_http, starts_with.
  change (lit "http://") with (104 :: lit "ttp://").
  change (lit "https://") with (104 :: lit "ttps://").
  cbn [strip_prefix].
  destruct (N.eqb_spec 104 c) as [<-|_]; [contradiction | reflexivity].
Qed.

(** X13: the URL test looks at the argument as it is.  A non-blank image
    argument whose first code unit is not a lower-case [h] (a URL after a
    blank, a URL with an upper-case scheme) is handled as a local path:
    when the run gets to the image, the first thing it does about it is to
    look up the resolved argument in the file system. *)
Theorem image_not_starting_with_h_is_a_path (w : World)
    (phone message : jsstring) (c : N) (s : jsstring)
    (rest : list jsstring) :
  c <> 104 ->
  all_space (c :: s) = false ->
  image_step_reached w phone message = true ->
  head (image_events (run_trace w (phone :: message :: (c :: s) :: rest)))
  = Some (ExistsSync (path_resolve w (c :: s))
            (existsSync w (path_resolve w (c :: s)))).
Proof.
  intros Hc Hs Hr. apply (not_http_by_first_unit c s) in Hc.
  unfold image_step_reached in Hr. revert Hc Hs Hr.
  run_cases; unfold image_events in *; simpl in *; congruence.
Qed.

Lemma image_not_starting_with_h_is_a_path_witness :
  32 <> 104 /\
  all_space (32 :: sample_url) = false /\
  image_step_reached (healthy false) sample_phone sample_message = true /\
  head (image_events
          (run_trace (healthy false)
             [sample_phone; sample_message; 32 :: sample_url]))
  = Some (ExistsSync (lit "/srv/wa/ https:/example.org/flyer.png") false).
Proof.
  split; [discriminate|]. split; [reflexivity|]. split; [reflexivity|].
  exact (image_not_starting_with_h_is_a_path (healthy false) sample_phone
           sample_message 32 sample_url []
           ltac:(discriminate) eq_refl eq_refl).
Defined.

(** X14: the guard [imagePath && imagePath.trim() !== ''] lets an image
    argument through exactly when it holds a code unit that is not white
    space; an absent argument, the empty string and a string of blanks,
    tabs, line ends or other Unicode spaces are all taken as no image. *)
Theorem image_guard_iff (imagePath : option jsstring) :
  image_given imagePath = true <->
  exists p c, imagePath = Some p /\ In c p /\ is_space c = false.
Proof.
  rewrite image_given_spec. destruct imagePath as [p|]; simpl.
  - rewrite negb_true_iff. unfold all_space. split.
    + intros H.
      assert (E : existsb (fun c => negb (is_space c)) p = true).
      { clear -H. induction p as [|c p IH]; simpl in *; [discriminate|].
        destruct (is_space c); simpl in *; auto. }
      apply existsb_exists in E as (c & Hin & Hc).
      exists p, c. rewrite negb_true_iff in Hc. auto.
    + intros (q & c & [= <-] & Hin & Hc).
      destruct (forallb is_space p) eqn:F; [|reflexivity].
      rewrite forallb_forall in F. rewrite (F c Hin) in Hc. discriminate.
  - split; [discriminate|]. intros (p & c & H & _). discriminate.
Qed.

End ObserveSpec.
